(** * GCP documentation RAG chatbot: chunking, indexing, retrieval, session history

    A shallow embedding of [app/document_processor.py] and [app/rag_chain.py].

    - Python [str] values are lists of Unicode code points ([N]); [len] is the
      list length read as a Python [int] ([Z]).
    - Dict-shaped values with a fixed key set (chunks, search results, chat
      messages) are records.
    - The collaborators (embedding model, vector store, completion endpoint)
      are explicit arguments; the calls made to them are returned as a trace
      next to the result, so that "no call was made" is a statement about
      that trace. *)

From Stdlib Require Import Ascii String DecimalString DecimalNat DecimalZ.
From Stdlib Require Import QArith.
From Stdlib Require Import List ZArith NArith Bool Lia Permutation Sorted.
From Stdlib Require Import DecidableType FMapWeakList FMapFacts.
Import ListNotations.

Local Open Scope Z_scope.

(** ** Python strings *)

Module PyStr.

Definition char := N.
Definition str := list char.

(** A literal, written as a Rocq string and read as code points. *)
Definition lit (s : string) : str := map N_of_ascii (list_ascii_of_string s).

Definition len (s : str) : Z := Z.of_nat (length s).

(** Truth value of a string: non-empty. *)
Definition truthy (s : str) : bool :=
  match s with [] => false | _ :: _ => true end.

(** [str.isspace] on one code point: the whitespace table of CPython
    (U+0009..U+000D, U+001C..U+0020, U+0085, U+00A0, U+1680, U+2000..U+200A,
    U+2028, U+2029, U+202F, U+205F, U+3000). *)
Definition isspace (c : char) : bool :=
  (((9 <=? c) && (c <=? 13)) || ((28 <=? c) && (c <=? 32)) ||
   (c =? 133) || (c =? 160) || (c =? 5760) ||
   ((8192 <=? c) && (c <=? 8202)) ||
   (c =? 8232) || (c =? 8233) || (c =? 8239) || (c =? 8287) ||
   (c =? 12288))%N.

Fixpoint lstrip (s : str) : str :=
  match s with
  | [] => []
  | c :: s' => if isspace c then lstrip s' else s
  end.

Definition rstrip (s : str) : str := rev (lstrip (rev s)).

(** [s.strip()] *)
Definition strip (s : str) : str := rstrip (lstrip s).

Definition newline : char := 10%N.

(** The separator ["\n\n"]. *)
Definition blank_line : str := [newline; newline].

Definition cons_to_head (c : char) (l : list str) : list str :=
  match l with
  | [] => [[c]]
  | p :: ps => (c :: p) :: ps
  end.

(** [s.split('\n\n')]: cut at every occurrence of the separator, scanning
    from the left without overlap; the result always has at least one
    piece. *)
Fixpoint split_blank_lines (s : str) : list str :=
  match s with
  | [] => [[]]
  | c :: s' =>
      match s' with
      | [] => [[c]]
      | d :: s'' =>
          if ((c =? newline) && (d =? newline))%N
          then [] :: split_blank_lines s''
          else cons_to_head c (split_blank_lines s')
      end
  end.

(** [sep.join(parts)] *)
Fixpoint join (sep : str) (parts : list str) : str :=
  match parts with
  | [] => []
  | p :: rest =>
      match rest with
      | [] => p
      | _ :: _ => p ++ sep ++ join sep rest
      end
  end.

(** [str(n)] for an [int]. *)
Definition str_of_Z (z : Z) : str := lit (NilEmpty.string_of_int (Z.to_int z)).
Definition str_of_nat (n : nat) : str := lit (NilEmpty.string_of_uint (Nat.to_uint n)).

End PyStr.
Import PyStr.

(** ** Text chunker ([DocumentProcessor.chunk_text_simple]) *)

Module Chunk.
Record t := mk { id : str; text : str; page : Z }.
End Chunk.

(** The dict appended at lines 74-78 and 86-90. *)
Definition make_chunk (page_num : Z) (chunk_id : nat) (current_chunk : str) : Chunk.t :=
  {| Chunk.id := lit "page" ++ str_of_Z page_num ++ lit "_chunk" ++ str_of_nat chunk_id;
     Chunk.text := strip current_chunk;
     Chunk.page := page_num |}.

(** The loop variables of [chunk_text_simple]. *)
Record chunker := mkChunker {
  chunks : list Chunk.t;
  current_chunk : str;
  chunk_id : nat
}.

(** One iteration of [for para in paragraphs]. *)
Definition chunk_step (page_num chunk_size : Z) (st : chunker) (para : str) : chunker :=
  let para := strip para in
  if negb (truthy para) then st
  else if (len (current_chunk st) + len para >? chunk_size) && truthy (current_chunk st)
  then {| chunks := chunks st ++ [make_chunk page_num (chunk_id st) (current_chunk st)];
          current_chunk := para;
          chunk_id := S (chunk_id st) |}
  else {| chunks := chunks st;
          current_chunk :=
            current_chunk st ++
              (if truthy (current_chunk st) then blank_line ++ para else para);
          chunk_id := chunk_id st |}.

Definition chunker_init : chunker :=
  {| chunks := []; current_chunk := []; chunk_id := 0%nat |}.

(** The flush after the loop (lines 85-90). *)
Definition chunker_finish (page_num : Z) (st : chunker) : list Chunk.t :=
  if truthy (strip (current_chunk st))
  then chunks st ++ [make_chunk page_num (chunk_id st) (current_chunk st)]
  else chunks st.

Definition chunk_text_simple (text : str) (page_num : Z) (chunk_size : Z) : list Chunk.t :=
  let paragraphs := split_blank_lines text in
  chunker_finish page_num
    (fold_left (chunk_step page_num chunk_size) paragraphs chunker_init).

(** Default of the [chunk_size] parameter. *)
Definition default_chunk_size : Z := 800.

(** ** Settings ([app/config.py]) *)

Record Settings := mkSettings {
  chunk_size : Z;
  chunk_overlap : Z;
  max_context_chunks : Z
}.

(** The defaults of the [Settings] class, used when the environment sets
    nothing. *)
Definition default_settings : Settings :=
  {| chunk_size := 1000; chunk_overlap := 200; max_context_chunks := 5 |}.

(** [n or default] for an [Optional[int]]: [None] and [0] are falsy. *)
Definition or_default (n : option Z) (default : Z) : Z :=
  match n with
  | None => default
  | Some k => if k =? 0 then default else k
  end.

(** ** Exceptions *)

Inductive exn := IndexError | ValueError | CapabilityError.

Inductive outcome (A : Type) :=
| Ok (a : A)
| Raised (e : exn).
Arguments Ok {A} a.
Arguments Raised {A} e.

Definition bind {A B : Type} (m : outcome A) (k : A -> outcome B) : outcome B :=
  match m with
  | Ok a => k a
  | Raised e => Raised e
  end.

Notation "x <- m ;; k" := (bind m (fun x => k))
  (at level 61, m at next level, right associativity).

(** [[f(x) for x in l]] where [f] may raise. *)
Fixpoint map_outcome {A B : Type} (f : A -> outcome B) (l : list A) : outcome (list B) :=
  match l with
  | [] => Ok []
  | a :: rest =>
      b <- f a ;;
      bs <- map_outcome f rest ;;
      Ok (b :: bs)
  end.

(** [enumerate(l, start)] *)
Fixpoint enumerate {A : Type} (start : nat) (l : list A) : list (nat * A) :=
  match l with
  | [] => []
  | a :: rest => (start, a) :: enumerate (S start) rest
  end.

(** [l[-n:]] for [n > 0]. *)
Definition last_n {A : Type} (n : nat) (l : list A) : list A :=
  skipn (length l - n) l.

(** ** The embedding model and the store's metric

    [SentenceTransformer.encode] and the distance the vector store ranks by
    are external; vectors are kept abstract and distances are rationals. *)

Class Embedding := {
  vector : Type;
  encode_text : str -> vector;
  distance : vector -> vector -> Q
}.

Record metadata := mkMetadata { md_page : Z }.

Section Store.
Context {E : Embedding}.

(** [model.encode(texts)]: one vector per text, in order. *)
Definition encode (texts : list str) : list vector := map encode_text texts.

(** A persisted tuple of the collection. *)
Record stored := mkStored {
  st_id : str;
  st_embedding : vector;
  st_document : str;
  st_metadata : metadata
}.

(** Modelled from the spec: the Vector Store Capability (a ChromaDB
    collection, which is not part of the repository). It persists
    (id, vector, text, metadata) tuples; [count] is their number, [add]
    appends a batch, and [query] answers with the [n_results] nearest tuples
    by ascending distance, fewer when the store is smaller. *)
Definition collection := list stored.

Definition collection_count (c : collection) : nat := length c.

Fixpoint zip_stored (ids : list str) (embeddings : list vector)
    (documents : list str) (metadatas : list metadata) : list stored :=
  match ids, embeddings, documents, metadatas with
  | i :: ids', e :: embeddings', d :: documents', m :: metadatas' =>
      mkStored i e d m :: zip_stored ids' embeddings' documents' metadatas'
  | _, _, _, _ => []
  end.

Definition collection_add (c : collection) (ids : list str) (embeddings : list vector)
    (documents : list str) (metadatas : list metadata) : collection :=
  c ++ zip_stored ids embeddings documents metadatas.

Fixpoint insert_by_distance (q : vector) (r : stored) (l : list stored) : list stored :=
  match l with
  | [] => [r]
  | r' :: l' =>
      if Qle_bool (distance q (st_embedding r)) (distance q (st_embedding r'))
      then r :: l
      else r' :: insert_by_distance q r l'
  end.

Definition rank_by_distance (q : vector) (c : collection) : list stored :=
  fold_right (insert_by_distance q) [] c.

Definition nearest (c : collection) (q : vector) (n_results : Z) : list stored :=
  firstn (Z.to_nat n_results) (rank_by_distance q c).

(** What [collection.query(..., include=["documents", "distances",
    "metadatas"])] returns: one inner list per query embedding. *)
Record query_result := mkQueryResult {
  documents : option (list (list str));
  distances : option (list (list Q));
  metadatas : option (list (list metadata))
}.

(** The store rejects a request for fewer than one result. *)
Definition collection_query (c : collection) (query_embeddings : list vector)
    (n_results : Z) : outcome query_result :=
  if n_results <=? 0 then Raised ValueError
  else
    let hits := map (fun q => (q, nearest c q n_results)) query_embeddings in
    Ok {| documents := Some (map (fun '(q, rs) => map st_document rs) hits);
          distances :=
            Some (map (fun '(q, rs) => map (fun r => distance q (st_embedding r)) rs) hits);
          metadatas := Some (map (fun '(q, rs) => map st_metadata rs) hits) |}.

(** ** Document indexer *)

(** Calls made to the chunker and to the collaborators, in order. *)
Inductive call :=
| ChunkCall (page_num : Z) (page_text : str)
| EncodeCall (texts : list str)
| AddCall (ids : list str).

Definition BATCH_SIZE : nat := 50.

(** [extract_pages_generator]: the PDF is the list of its pages' extracted
    texts; pages are numbered from 1 and blank pages are skipped. *)
Fixpoint extract_pages_from (page_num : Z) (pages : list str) : list (Z * str) :=
  match pages with
  | [] => []
  | page_text :: rest =>
      (if truthy page_text && truthy (strip page_text)
       then [(page_num + 1, strip page_text)]
       else [])
        ++ extract_pages_from (page_num + 1) rest
  end.

Definition extract_pages_generator (pdf : list str) : list (Z * str) :=
  extract_pages_from 0 pdf.

(** [_store_batch]: the count stored, the collection afterwards, and the
    collaborator calls made. *)
Definition store_batch (c : collection) (chunks : list Chunk.t)
    : nat * collection * list call :=
  match chunks with
  | [] => (0%nat, c, [])
  | _ :: _ =>
      let texts := map Chunk.text chunks in
      let ids := map Chunk.id chunks in
      let metadatas := map (fun chunk => mkMetadata (Chunk.page chunk)) chunks in
      let embeddings := encode texts in
      (length chunks,
       collection_add c ids embeddings texts metadatas,
       [EncodeCall texts; AddCall ids])
  end.

(** The loop variables of [process_and_store_pdf], with the collection and
    the calls made so far. *)
Record indexer := mkIndexer {
  all_chunks : list Chunk.t;
  total_indexed : nat;
  ix_collection : collection;
  ix_calls : list call
}.

(** One iteration of the page loop (lines 108-118). *)
Definition index_page (st : indexer) (p : Z * str) : indexer :=
  let '(page_num, page_text) := p in
  let page_chunks := chunk_text_simple page_text page_num default_chunk_size in
  let all := all_chunks st ++ page_chunks in
  let calls := ix_calls st ++ [ChunkCall page_num page_text] in
  if (BATCH_SIZE <=? length all)%nat
  then
    let '(indexed, c, stored_calls) := store_batch (ix_collection st) all in
    {| all_chunks := [];
       total_indexed := total_indexed st + indexed;
       ix_collection := c;
       ix_calls := calls ++ stored_calls |}
  else
    {| all_chunks := all;
       total_indexed := total_indexed st;
       ix_collection := ix_collection st;
       ix_calls := calls |}.

(** The flush of the remaining chunks (lines 120-127). *)
Definition index_finish (st : indexer) : nat * collection * list call :=
  match all_chunks st with
  | [] => (total_indexed st, ix_collection st, ix_calls st)
  | _ :: _ =>
      let '(indexed, c, stored_calls) := store_batch (ix_collection st) (all_chunks st) in
      ((total_indexed st + indexed)%nat, c, ix_calls st ++ stored_calls)
  end.

Definition process_and_store_pdf (c : collection) (pdf : list str)
    : nat * collection * list call :=
  if (0 <? collection_count c)%nat then (collection_count c, c, [])
  else
    index_finish
      (fold_left index_page (extract_pages_generator pdf)
         {| all_chunks := []; total_indexed := 0; ix_collection := c; ix_calls := [] |}).

(** ** Retriever *)

(** One entry of the list [search] returns. *)
Record search_result := mkSearchResult {
  sr_text : str;
  sr_distance : option Q;
  sr_metadata : option metadata
}.

(** [results[key][0][i] if results[key] else None] *)
Definition field_at {A : Type} (field : option (list (list A))) (i : nat)
    : outcome (option A) :=
  match field with
  | None | Some [] => Ok None
  | Some (first :: _) =>
      match nth_error first i with
      | Some a => Ok (Some a)
      | None => Raised IndexError
      end
  end.

(** Lines 166-181: one entry per returned document, in the store's
    order. *)
Definition format_results (results : query_result) : outcome (list search_result) :=
  match documents results with
  | Some ((_ :: _) as docs :: _) =>
      map_outcome
        (fun '(i, doc) =>
           d <- field_at (distances results) i ;;
           m <- field_at (metadatas results) i ;;
           Ok {| sr_text := doc; sr_distance := d; sr_metadata := m |})
        (enumerate 0 docs)
  | _ => Ok []
  end.

Definition search (settings : Settings) (c : collection) (query : str)
    (n_results : option Z) : outcome (list search_result) :=
  let n_results := or_default n_results (max_context_chunks settings) in
  match encode [query] with
  | query_embedding :: _ =>
      results <- collection_query c [query_embedding] n_results ;;
      format_results results
  | [] => Raised IndexError
  end.

End Store.

(** ** Answer orchestrator ([RAGChain]) *)

Inductive role_name := user | assistant.

Record message := mkMessage { role : role_name; content : str }.

Record source := mkSource { src_text : str; relevance : option Q }.

Record response := mkResponse {
  answer : str;
  sources : list source;
  context_used : nat
}.

(** The text-completion capability: [client.messages.create(system=...,
    messages=...)] followed by [response.content[0].text]; it may raise. *)
Definition completion := str -> list message -> outcome str.

Record RAGChain := mkRAGChain { conversation_history : list message }.

(** [RAGChain.__init__] *)
Definition new_chain : RAGChain := {| conversation_history := [] |}.

Definition build_system_prompt : str :=
  lit "You are a knowledgeable Google Cloud Platform (GCP) assistant. Your role is to help users understand GCP services, concepts, and best practices based on the provided documentation.

Guidelines:
1. Answer questions accurately based on the context provided from the GCP documentation.
2. If asked about a specific service (like Cloud Run, Compute Engine, etc.), provide:
   - A clear explanation of what it is
   - Key features and capabilities
   - Basic deployment/usage steps when relevant
   - Best practices if applicable
3. Keep answers concise but comprehensive. For technical topics, include practical examples.
4. If the context doesn't contain enough information to answer the question, say so honestly.
5. Format responses using markdown for better readability (use headers, bullet points, code blocks when appropriate).
6. When explaining deployment steps, be specific and actionable.

Remember: You are helping users understand GCP concepts and services. Be helpful, accurate, and practical.".

Definition no_context_marker : str :=
  lit "No relevant context found in the documentation.".

(** The f-string of line 44. *)
Definition context_part (i : nat) (chunk : search_result) : str :=
  lit "[Context " ++ str_of_nat i ++ lit "]" ++ [newline] ++ sr_text chunk.

(** [_build_context_prompt]: the parts are appended one by one while
    [enumerate(context_chunks, 1)] is walked, then joined. *)
Definition build_context_prompt (context_chunks : list search_result) : str :=
  match context_chunks with
  | [] => no_context_marker
  | _ :: _ =>
      let context_parts :=
        fold_left (fun parts '(i, chunk) => parts ++ [context_part i chunk])
          (enumerate 1 context_chunks) [] in
      join blank_line context_parts
  end.

(** The f-string of lines 81-88. *)
Definition user_message (context question : str) : str :=
  lit "Based on the following context from GCP documentation, please answer my question.

CONTEXT:
" ++ context ++ lit "

QUESTION: " ++ question ++ lit "

Please provide a helpful and accurate answer based on the context above. If you need to explain how to deploy or use something, include practical steps.".

(** Lines 73-90: the message sequence sent to the completion capability. *)
Definition build_messages (chain : RAGChain) (include_history : bool)
    (context question : str) : list message :=
  (if include_history && negb (length (conversation_history chain) =? 0)%nat
   then last_n 6 (conversation_history chain)
   else [])
    ++ [mkMessage user (user_message context question)].

(** Lines 102-108: append the exchange, then keep the last 20 messages. *)
Definition update_history (history : list message) (question answer : str) : list message :=
  let history := (history ++ [mkMessage user question]) ++ [mkMessage assistant answer] in
  if (20 <? length history)%nat then last_n 20 history else history.

Section Orchestrator.
Context {E : Embedding}.
Variable settings : Settings.

(** [RAGChain.query]. A failure of retrieval or of the completion call
    propagates and leaves the chain as it was. *)
Definition query (llm : completion) (c : collection) (chain : RAGChain)
    (question : str) (include_history : bool) (max_context_chunks_arg : option Z)
    : outcome response * RAGChain :=
  let max_chunks := or_default max_context_chunks_arg (max_context_chunks settings) in
  match search settings c question (Some max_chunks) with
  | Raised e => (Raised e, chain)
  | Ok relevant_chunks =>
      let context := build_context_prompt relevant_chunks in
      let messages := build_messages chain include_history context question in
      match llm build_system_prompt messages with
      | Raised e => (Raised e, chain)
      | Ok answer_text =>
          (Ok {| answer := answer_text;
                 sources :=
                   map (fun chunk =>
                          {| src_text := firstn 200 (sr_text chunk) ++ lit "...";
                             relevance := sr_distance chunk |})
                     relevant_chunks;
                 context_used := length relevant_chunks |},
           {| conversation_history :=
                update_history (conversation_history chain) question answer_text |})
      end
  end.

(** One call of [query] as the HTTP layer makes it, with the completion
    capability's behaviour at that call. *)
Record query_call := mkQueryCall {
  qc_llm : completion;
  qc_question : str;
  qc_include_history : bool;
  qc_max_context_chunks : option Z
}.

Definition query_step (c : collection) (chain : RAGChain) (q : query_call) : RAGChain :=
  snd (query (qc_llm q) c chain (qc_question q) (qc_include_history q)
         (qc_max_context_chunks q)).

(** A session: a fresh chain, then the calls in order. *)
Definition run_queries (c : collection) (calls : list query_call) : RAGChain :=
  fold_left (query_step c) calls new_chain.

End Orchestrator.

(** [RAGChain.clear_history] and [RAGChain.get_history] *)
Definition clear_history (chain : RAGChain) : RAGChain := {| conversation_history := [] |}.
Definition get_history (chain : RAGChain) : list message := conversation_history chain.

(** ** Sessions ([_rag_chains], [get_rag_chain], [clear_session])

    The dict from session ids to chains is a finite map with string keys. A
    chain held in the dict is mutated in place by [query]; here the chain
    after the call is written back under its key. *)

Module StrKey <: DecidableType.
Definition t := str.
Definition eq := @eq str.
Definition eq_refl := @eq_refl str.
Definition eq_sym := @eq_sym str.
Definition eq_trans := @eq_trans str.
Definition eq_dec : forall x y : str, {x = y} + {x <> y} := list_eq_dec N.eq_dec.
End StrKey.

Module Sessions := FMapWeakList.Make StrKey.
Module SessionsFacts := FMapFacts.WFacts_fun StrKey Sessions.

Definition get_rag_chain (chains : Sessions.t RAGChain) (session_id : str)
    : RAGChain * Sessions.t RAGChain :=
  match Sessions.find session_id chains with
  | Some chain => (chain, chains)
  | None => (new_chain, Sessions.add session_id new_chain chains)
  end.

Definition clear_session (chains : Sessions.t RAGChain) (session_id : str)
    : Sessions.t RAGChain :=
  if Sessions.mem session_id chains then Sessions.remove session_id chains else chains.

(** ** HTTP endpoints ([app/main.py]) *)

Module ChatRequest.
Record t := mk { message : str; session_id : option str }.
End ChatRequest.

Module ChatResponse.
Record t := mk { answer : str; session_id : str; sources_count : nat }.
End ChatResponse.

Inductive HTTPException := mkHTTPException (status_code : Z) (detail : str).

Definition status_of (e : HTTPException) : Z :=
  match e with mkHTTPException status_code _ => status_code end.

(** [s or default] for an [Optional[str]]: [None] and the empty string are
    falsy. *)
Definition str_or (s : option str) (default : str) : str :=
  match s with
  | Some ((_ :: _) as given) => given
  | _ => default
  end.

Section Endpoints.
Context {E : Embedding}.
Variable settings : Settings.

(** [str(e)] for an exception raised under [query]. *)
Variable describe : exn -> str.

(** [POST /chat]. [uuid4] is what [str(uuid.uuid4())] gives at this
    request; the collection is the processor's, which the endpoint only
    reads. *)
Definition chat (llm : completion) (uuid4 : str) (c : collection)
    (chains : Sessions.t RAGChain) (request : ChatRequest.t)
    : (ChatResponse.t + HTTPException) * Sessions.t RAGChain :=
  if negb (truthy (strip (ChatRequest.message request)))
  then (inr (mkHTTPException 400 (lit "Message cannot be empty")), chains)
  else
    let session_id := str_or (ChatRequest.session_id request) uuid4 in
    let '(rag_chain, chains) := get_rag_chain chains session_id in
    match query settings llm c rag_chain (ChatRequest.message request) true None with
    | (Ok result, rag_chain) =>
        (inl {| ChatResponse.answer := answer result;
                ChatResponse.session_id := session_id;
                ChatResponse.sources_count := context_used result |},
         Sessions.add session_id rag_chain chains)
    | (Raised e, rag_chain) =>
        (inr (mkHTTPException 500 (lit "Error processing request: " ++ describe e)),
         Sessions.add session_id rag_chain chains)
    end.

(** [POST /clear-history]: the session map afterwards and the message of
    the reply. *)
Definition clear_history_endpoint (chains : Sessions.t RAGChain) (session_id : option str)
    : Sessions.t RAGChain * str :=
  let sid := str_or session_id (lit "default") in
  (clear_session chains sid, lit "History cleared for session " ++ sid).

(** [get_document_count], reported by [GET /health] and [GET /stats]. *)
Definition get_document_count (c : collection) : nat := collection_count c.

(** The startup part of [lifespan]: the PDF is indexed when the file
    exists ([Some pdf]); the collection afterwards. *)
Definition lifespan_startup (c : collection) (pdf : option (list str)) : collection :=
  match pdf with
  | Some pages => snd (fst (process_and_store_pdf c pages))
  | None => c
  end.

(** A request to the session endpoints, with what the environment gives at
    that request. *)
Inductive request :=
| ChatRequested (llm : completion) (uuid4 : str) (body : ChatRequest.t)
| ClearRequested (session_id : option str).

Definition serve (c : collection) (chains : Sessions.t RAGChain) (r : request)
    : Sessions.t RAGChain :=
  match r with
  | ChatRequested llm uuid4 body => snd (chat llm uuid4 c chains body)
  | ClearRequested session_id => fst (clear_history_endpoint chains session_id)
  end.

(** The session map after a sequence of requests, from a fresh process. *)
Definition serve_all (c : collection) (requests : list request) : Sessions.t RAGChain :=
  fold_left (serve c) requests (Sessions.empty RAGChain).

End Endpoints.

(** ** Vocabulary of the statements *)

(** The paragraphs of a text as the chunker sees them: the pieces between
    blank lines, stripped, those left empty dropped. *)
Definition paragraphs (text : str) : list str :=
  filter truthy (map strip (split_blank_lines text)).

(** A string that starts and ends with a non-space character. *)
Definition first_nonspace (s : str) : bool :=
  match s with
  | [] => false
  | c :: _ => negb (isspace c)
  end.

Definition tight (s : str) : bool := first_nonspace s && first_nonspace (rev s).

(** Paragraph characters of a group, separators not counted. *)
Definition total_len (group : list str) : Z :=
  fold_right (fun p acc => len p + acc) 0 group.

(** The id the chunker gives to the chunk of ordinal [i] on page [page_num]. *)
Definition chunk_id_of (page_num : Z) (i : nat) : str :=
  lit "page" ++ str_of_Z page_num ++ lit "_chunk" ++ str_of_nat i.

(** The chunker read at paragraph granularity, as section 4.1 of the
    design words it: paragraphs are accumulated in a running group, which is
    closed when the next paragraph would make the buffer exceed the
    threshold and the group is not empty; a non-empty trailing group is
    closed at the end. *)
Record grouper := mkGrouper {
  groups : list (list str);
  current_group : list str
}.

Definition nonempty {A : Type} (l : list A) : bool :=
  match l with [] => false | _ :: _ => true end.

Definition group_step (chunk_size : Z) (g : grouper) (p : str) : grouper :=
  if (len (join blank_line (current_group g)) + len p >? chunk_size)
     && nonempty (current_group g)
  then {| groups := groups g ++ [current_group g]; current_group := [p] |}
  else {| groups := groups g; current_group := current_group g ++ [p] |}.

Definition group_finish (g : grouper) : list (list str) :=
  if nonempty (current_group g) then groups g ++ [current_group g] else groups g.

Definition group_paragraphs (chunk_size : Z) (ps : list str) : list (list str) :=
  group_finish (fold_left (group_step chunk_size) ps {| groups := []; current_group := [] |}).

(** The chunk made of the group of ordinal [i]. *)
Definition chunk_of_group (page_num : Z) (ig : nat * list str) : Chunk.t :=
  {| Chunk.id := chunk_id_of page_num (fst ig);
     Chunk.text := join blank_line (snd ig);
     Chunk.page := page_num |}.

(** The simulation between the loop variables and the running groups. *)
Record simulates (page_num : Z) (st : chunker) (g : grouper) : Prop := {
  sim_chunks : chunks st = map (chunk_of_group page_num) (enumerate 0 (groups g));
  sim_current : current_chunk st = join blank_line (current_group g);
  sim_ordinal : chunk_id st = length (groups g);
  sim_tight : Forall (fun p => tight p = true) (current_group g)
}.

(** A group respects the threshold when it is a single paragraph or when
    its paragraphs add up to at most the threshold. *)
Definition within (chunk_size : Z) (grp : list str) : Prop :=
  (exists p, grp = [p]) \/ total_len grp <= chunk_size.

Record grouper_ok (chunk_size : Z) (g : grouper) : Prop := {
  ok_groups_nonempty : Forall (fun grp => grp <> []) (groups g);
  ok_groups_within : Forall (within chunk_size) (groups g);
  ok_current_within : current_group g = [] \/ within chunk_size (current_group g)
}.

(** The length a joined group can reach: a group of several paragraphs
    passed the test of line 73 before its last paragraph was appended, and
    that test does not count the separator. *)
Definition slack (chunk_size : Z) (grp : list str) : Prop :=
  (exists p, grp = [p]) \/ len (join blank_line grp) <= chunk_size + 2.

(** A list of groups in which a group is followed by another only when the
    first paragraph of the next one did not fit: the test of line 73, read
    on the groups. *)
Definition closes_late (chunk_size : Z) (l : list (list str)) : Prop :=
  forall pre g1 g2 post,
    l = pre ++ g1 :: g2 :: post ->
    exists p rest, g2 = p :: rest /\ chunk_size < len (join blank_line g1) + len p.

Section StoreVocabulary.
Context {E : Embedding}.

(** All the chunks a source yields, page after page. *)
Definition corpus_chunks (pdf : list str) : list Chunk.t :=
  flat_map (fun p => chunk_text_simple (snd p) (fst p) default_chunk_size)
    (extract_pages_generator pdf).

(** A call that hands a non-empty batch to its collaborator. *)
Definition batch_nonempty (k : call) : bool :=
  match k with
  | ChunkCall _ _ => true
  | EncodeCall texts => nonempty texts
  | AddCall ids => nonempty ids
  end.

(** A call to the embedding model or a write to the store. *)
Definition is_collaborator_call (k : call) : bool :=
  match k with
  | ChunkCall _ _ => false
  | EncodeCall _ | AddCall _ => true
  end.

(** The entry [search] makes of a stored tuple, for the query vector [q]. *)
Definition result_of (q : vector) (r : stored) : search_result :=
  {| sr_text := st_document r;
     sr_distance := Some (distance q (st_embedding r));
     sr_metadata := Some (st_metadata r) |}.

(** [r1] is at least as near to [q] as [r2]. *)
Definition nearer (q : vector) (r1 r2 : stored) : Prop :=
  (distance q (st_embedding r1) <= distance q (st_embedding r2))%Q.

(** Distances present and ascending along a result list. *)
Definition ascending (rs : list search_result) : Prop :=
  exists ds, map sr_distance rs = map Some ds /\ StronglySorted Qle ds.

(** What the page loop maintains: the store grows by what was indexed,
    every chunk met is either indexed or still buffered, and no empty batch
    is handed to a collaborator. *)
Record indexer_inv (c0 : collection) (met : nat) (st : indexer) : Prop := {
  inv_count : collection_count (ix_collection st)
              = (collection_count c0 + total_indexed st)%nat;
  inv_total : (total_indexed st + length (all_chunks st))%nat = met;
  inv_calls : forallb batch_nonempty (ix_calls st) = true;
  inv_idle : met = 0%nat -> ix_collection st = c0 /\ ix_calls st = []
}.

(** The tuple [_store_batch] persists for a chunk (lines 134-147). *)
Definition stored_of_chunk (chunk : Chunk.t) : stored :=
  {| st_id := Chunk.id chunk;
     st_embedding := encode_text (Chunk.text chunk);
     st_document := Chunk.text chunk;
     st_metadata := mkMetadata (Chunk.page chunk) |}.

(** The batches of ids written to the store along a trace, in order. *)
Definition add_batches (calls : list call) : list (list str) :=
  flat_map (fun k => match k with AddCall ids => [ids] | _ => [] end) calls.

(** The batches of texts handed to the embedding model along a trace. *)
Definition encode_batches (calls : list call) : list (list str) :=
  flat_map (fun k => match k with EncodeCall texts => [texts] | _ => [] end) calls.

(** The pages handed to the chunker along a trace. *)
Definition chunked_pages (calls : list call) : list (Z * str) :=
  flat_map (fun k => match k with ChunkCall n t => [(n, t)] | _ => [] end) calls.

(** What the page loop maintains about the content it moves: the chunks
    met so far are either persisted or still buffered, in order, every
    batch written in the loop is a full one, and each write follows one
    embedding call on as many texts. *)
Record flow_inv (c0 : collection) (seen : list Chunk.t) (pages : list (Z * str))
    (st : indexer) : Prop := {
  fl_content : ix_collection st ++ map stored_of_chunk (all_chunks st)
               = c0 ++ map stored_of_chunk seen;
  fl_ids : concat (add_batches (ix_calls st)) ++ map Chunk.id (all_chunks st)
           = map Chunk.id seen;
  fl_texts : concat (encode_batches (ix_calls st)) ++ map Chunk.text (all_chunks st)
             = map Chunk.text seen;
  fl_pages : chunked_pages (ix_calls st) = pages;
  fl_total : (total_indexed st + length (all_chunks st))%nat = length seen;
  fl_sizes : Forall (fun b => (BATCH_SIZE <= length b)%nat) (add_batches (ix_calls st));
  fl_aligned : map (@length str) (encode_batches (ix_calls st))
               = map (@length str) (add_batches (ix_calls st))
}.

End StoreVocabulary.

(** A toy embedding for the examples: a text is embedded as its length and
    the distance is the absolute difference. *)
Definition length_embedding : Embedding :=
  {| vector := Z;
     encode_text := len;
     distance := fun a b => inject_Z (Z.abs (a - b)) |}.

(** A store of two short documents, with the toy embedding. *)
Definition two_documents : @collection length_embedding :=
  [ @mkStored length_embedding (lit "page1_chunk0") 9 (lit "Cloud Run") (mkMetadata 1);
    @mkStored length_embedding (lit "page2_chunk0") 3 (lit "GKE") (mkMetadata 2) ].

(** The two messages one answered question adds to the history. *)
Definition exchange (question answer_text : str) : list message :=
  [mkMessage user question; mkMessage assistant answer_text].

Definition role_eqb (a b : role_name) : bool :=
  match a, b with
  | user, user | assistant, assistant => true
  | _, _ => false
  end.

Definition other_role (r : role_name) : role_name :=
  match r with user => assistant | assistant => user end.

(** The roles alternate along the history, starting with [first]. *)
Fixpoint alternates (first : role_name) (history : list message) : bool :=
  match history with
  | [] => true
  | m :: rest => role_eqb (role m) first && alternates (other_role first) rest
  end.

(** A history made of whole exchanges. *)
Definition paired (history : list message) : Prop :=
  exists exchanges : list (str * str),
    history = flat_map (fun qa => exchange (fst qa) (snd qa)) exchanges.

(** A message sequence the completion endpoint accepts as a conversation:
    roles alternate from a user turn to a final user turn, and no more than
    three earlier exchanges come before that final turn. *)
Definition well_formed_messages (messages : list message) : bool :=
  alternates user messages && Nat.odd (length messages) && (length messages <=? 7)%nat.

(** A completion capability that refuses any other message sequence. *)
Definition strict (llm : completion) : completion :=
  fun system messages =>
    if well_formed_messages messages then llm system messages
    else Raised CapabilityError.

Section SessionVocabulary.
Context {E : Embedding}.
Variable settings : Settings.

(** A session run that also keeps the untrimmed transcript: every message
    ever appended to the history, oldest first. *)
Definition logged_step (c : collection) (st : RAGChain * list message) (q : query_call)
    : RAGChain * list message :=
  match query settings (qc_llm q) c (fst st) (qc_question q) (qc_include_history q)
          (qc_max_context_chunks q) with
  | (Ok r, chain) => (chain, snd st ++ exchange (qc_question q) (answer r))
  | (Raised _, chain) => (chain, snd st)
  end.

Definition run_logged (c : collection) (calls : list query_call) : RAGChain * list message :=
  fold_left (logged_step c) calls (new_chain, []).

End SessionVocabulary.

(** A completion capability that always answers ["ok"], and one that
    always fails. *)
Definition llm_ok : completion := fun _ _ => Ok (lit "ok").
Definition llm_down : completion := fun _ _ => Raised CapabilityError.

(** A rendering of exceptions for the examples. *)
Definition exn_text (e : exn) : str :=
  match e with
  | IndexError => lit "list index out of range"
  | ValueError => lit "Number of requested results cannot be negative, or zero."
  | CapabilityError => lit "capability failed"
  end.

(** * Properties *)

(** ** Strings *)

Lemma lit_inj (a b : string) : lit a = lit b -> a = b.
Proof.
  unfold lit. intros H.
  rewrite <- (string_of_list_ascii_of_string a), <- (string_of_list_ascii_of_string b).
  f_equal.
  revert H. generalize (list_ascii_of_string a) (list_ascii_of_string b).
  intros la. induction la as [|x la IH]; intros [|y lb]; simpl; try discriminate; auto.
  intros H. injection H as Hxy Hl.
  f_equal; [|now apply IH].
  rewrite <- (ascii_N_embedding x), <- (ascii_N_embedding y). now rewrite Hxy.
Qed.

Lemma str_of_nat_inj (n m : nat) : str_of_nat n = str_of_nat m -> n = m.
Proof.
  unfold str_of_nat. intros H. apply lit_inj in H.
  apply DecimalNat.Unsigned.to_uint_inj.
  assert (Hs : forall d, NilEmpty.uint_of_string (NilEmpty.string_of_uint d) = Some d)
    by apply NilEmpty.usu.
  pose proof (Hs (Nat.to_uint n)) as Hn. pose proof (Hs (Nat.to_uint m)) as Hm.
  rewrite H in Hn. rewrite Hn in Hm. now injection Hm.
Qed.

Lemma chunk_id_of_inj (page_num : Z) (i j : nat) :
  chunk_id_of page_num i = chunk_id_of page_num j -> i = j.
Proof.
  unfold chunk_id_of. intros H.
  repeat apply app_inv_head in H.
  now apply str_of_nat_inj.
Qed.

Lemma truthy_true (s : str) : truthy s = true <-> s <> [].
Proof. destruct s; simpl; split; congruence. Qed.

Lemma truthy_false (s : str) : truthy s = false <-> s = [].
Proof. destruct s; simpl; split; congruence. Qed.

Lemma len_app (a b : str) : len (a ++ b) = len a + len b.
Proof. unfold len. rewrite length_app. lia. Qed.

Lemma len_nonneg (s : str) : 0 <= len s.
Proof. unfold len. lia. Qed.

Lemma lstrip_first (s : str) : lstrip s = [] \/ first_nonspace (lstrip s) = true.
Proof.
  induction s as [|c s IH]; simpl; auto.
  destruct (isspace c) eqn:Hc; auto.
  right. simpl. now rewrite Hc.
Qed.

Lemma lstrip_fixed (s : str) : first_nonspace s = true -> lstrip s = s.
Proof.
  destruct s as [|c s]; simpl; auto.
  intros H. apply negb_true_iff in H. now rewrite H.
Qed.

Lemma lstrip_app_nonspace (s : str) (c : char) :
  isspace c = false -> lstrip (s ++ [c]) = lstrip s ++ [c].
Proof.
  intros Hc. induction s as [|d s IH]; simpl.
  - now rewrite Hc.
  - destruct (isspace d); auto.
Qed.

Lemma first_nonspace_app (a b : str) :
  first_nonspace a = true -> first_nonspace (a ++ b) = true.
Proof. destruct a; simpl; [discriminate|auto]. Qed.

Lemma rstrip_tight (s : str) : first_nonspace s = true -> tight (rstrip s) = true.
Proof.
  destruct s as [|c s]; simpl; [discriminate|].
  intros H. apply negb_true_iff in H.
  unfold rstrip, tight. change (rev (c :: s)) with (rev s ++ [c]).
  rewrite lstrip_app_nonspace by assumption.
  rewrite rev_involutive, rev_app_distr. simpl. rewrite H. simpl.
  destruct (lstrip_first (rev s)) as [Hn|Hf].
  - rewrite Hn. simpl. now rewrite H.
  - now apply first_nonspace_app.
Qed.

(** A stripped string is empty or starts and ends with a non-space. *)
Lemma strip_tight (s : str) : strip s = [] \/ tight (strip s) = true.
Proof.
  unfold strip. destruct (lstrip_first s) as [Hn|Hf].
  - left. rewrite Hn. reflexivity.
  - right. now apply rstrip_tight.
Qed.

Lemma tight_strip (s : str) : tight s = true -> strip s = s.
Proof.
  unfold tight, strip, rstrip. intros H. apply andb_true_iff in H as [H1 H2].
  rewrite (lstrip_fixed s H1), (lstrip_fixed (rev s) H2).
  apply rev_involutive.
Qed.

Lemma tight_nonempty (s : str) : tight s = true -> s <> [].
Proof. destruct s; simpl; [discriminate|congruence]. Qed.

Lemma tight_app (a m b : str) :
  tight a = true -> tight b = true -> tight (a ++ m ++ b) = true.
Proof.
  unfold tight. intros Ha Hb.
  apply andb_true_iff in Ha as [Ha _]. apply andb_true_iff in Hb as [_ Hb].
  apply andb_true_iff. split.
  - now apply first_nonspace_app.
  - rewrite !rev_app_distr, <- app_assoc. now apply first_nonspace_app.
Qed.

Lemma strip_idempotent (s : str) : strip (strip s) = strip s.
Proof.
  destruct (strip_tight s) as [Hn|Ht].
  - rewrite Hn. reflexivity.
  - now apply tight_strip.
Qed.

(** ** Joining and splitting *)

Lemma join_snoc (sep : str) (l : list str) (p : str) :
  join sep (l ++ [p]) = match l with [] => p | _ :: _ => join sep l ++ sep ++ p end.
Proof.
  induction l as [|a l IH]; [reflexivity|].
  destruct l as [|b l]; [reflexivity|].
  change (join sep ((a :: b :: l) ++ [p])) with (a ++ sep ++ join sep ((b :: l) ++ [p])).
  rewrite IH.
  change (join sep (a :: b :: l)) with (a ++ sep ++ join sep (b :: l)).
  now rewrite <- !app_assoc.
Qed.

Lemma join_tight (sep : str) (l : list str) :
  l <> [] -> Forall (fun p => tight p = true) l -> tight (join sep l) = true.
Proof.
  induction l as [|a l IH]; [congruence|].
  intros _ Hall. inversion Hall as [|? ? Ha Hl]; subst.
  destruct l as [|b l]; [exact Ha|].
  change (join sep (a :: b :: l)) with (a ++ sep ++ join sep (b :: l)).
  apply tight_app; [exact Ha|]. apply IH; [discriminate|exact Hl].
Qed.

Lemma join_nil_iff (sep : str) (l : list str) :
  Forall (fun p => tight p = true) l -> (join sep l = [] <-> l = []).
Proof.
  intros Hall. split; [|intros ->; reflexivity].
  destruct l as [|a l]; [reflexivity|]. intros H.
  assert (Ht : tight (join sep (a :: l)) = true) by (apply join_tight; [discriminate|assumption]).
  rewrite H in Ht. discriminate.
Qed.

Lemma total_len_app (a b : list str) : total_len (a ++ b) = total_len a + total_len b.
Proof. induction a as [|x a IH]; simpl; [reflexivity|]. rewrite IH. lia. Qed.

Lemma total_len_le_join (sep : str) (l : list str) : total_len l <= len (join sep l).
Proof.
  induction l as [|a l IH]; [unfold len; simpl; lia|].
  destruct l as [|b l]; [simpl; lia|].
  change (join sep (a :: b :: l)) with (a ++ sep ++ join sep (b :: l)).
  rewrite !len_app. change (total_len (a :: b :: l)) with (len a + total_len (b :: l)).
  pose proof (len_nonneg sep). lia.
Qed.

Lemma cons_to_head_join (c : char) (l : list str) :
  l <> [] -> join blank_line (cons_to_head c l) = c :: join blank_line l.
Proof.
  destruct l as [|p [|q l]]; [congruence| |]; reflexivity.
Qed.

Lemma split_blank_lines_nonempty (s : str) : split_blank_lines s <> [].
Proof.
  induction s as [|c s IH]; simpl; [discriminate|].
  destruct s as [|d s]; [discriminate|].
  destruct ((c =? newline) && (d =? newline))%N; [discriminate|].
  destruct (split_blank_lines (d :: s)); [congruence|discriminate].
Qed.

(** Splitting loses nothing: joining the pieces with the separator gives
    the text back. *)
Lemma join_split_blank_lines (s : str) : join blank_line (split_blank_lines s) = s.
Proof.
  assert (H : forall n s, (length s <= n)%nat -> join blank_line (split_blank_lines s) = s).
  { induction n as [|n IH]; intros [|c t] Hlen; simpl in Hlen; try reflexivity; try lia.
    destruct t as [|d u]; [reflexivity|].
    change (split_blank_lines (c :: d :: u)) with
      (if ((c =? newline) && (d =? newline))%N
       then [] :: split_blank_lines u
       else cons_to_head c (split_blank_lines (d :: u))).
    destruct ((c =? newline) && (d =? newline))%N eqn:Hsep.
    - apply andb_true_iff in Hsep as [Hc Hd].
      apply N.eqb_eq in Hc, Hd. subst c d.
      pose proof (split_blank_lines_nonempty u) as Hne.
      destruct (split_blank_lines u) as [|p ps] eqn:Hu; [congruence|].
      change (join blank_line ([] :: p :: ps)) with (blank_line ++ join blank_line (p :: ps)).
      rewrite <- Hu, IH by (simpl in Hlen; lia). reflexivity.
    - rewrite cons_to_head_join by apply split_blank_lines_nonempty.
      rewrite IH by (simpl in *; lia). reflexivity. }
  apply (H (length s)). lia.
Qed.

(** ** The chunker against its paragraph-level reading *)

Lemma enumerate_app {A : Type} (l1 l2 : list A) (start : nat) :
  enumerate start (l1 ++ l2) = enumerate start l1 ++ enumerate (start + length l1) l2.
Proof.
  revert start. induction l1 as [|a l1 IH]; intros start; simpl.
  - now rewrite Nat.add_0_r.
  - rewrite IH. now rewrite Nat.add_succ_r.
Qed.

Lemma enumerate_length {A : Type} (l : list A) (start : nat) :
  length (enumerate start l) = length l.
Proof. revert start. induction l; intros; simpl; auto. Qed.

Lemma map_fst_enumerate {A : Type} (l : list A) (start : nat) :
  map fst (enumerate start l) = seq start (length l).
Proof. revert start. induction l; intros; simpl; [reflexivity|]. now f_equal. Qed.

Lemma map_snd_enumerate {A : Type} (l : list A) (start : nat) :
  map snd (enumerate start l) = l.
Proof. revert start. induction l; intros; simpl; [reflexivity|]. now f_equal. Qed.

Lemma nonempty_true {A : Type} (l : list A) : nonempty l = true <-> l <> [].
Proof. destruct l; simpl; split; congruence. Qed.

Lemma simulates_truthy (page_num : Z) (st : chunker) (g : grouper) :
  simulates page_num st g -> truthy (current_chunk st) = nonempty (current_group g).
Proof.
  intros [_ Hc _ Ht]. rewrite Hc.
  destruct (current_group g) as [|p ps] eqn:Hg; [reflexivity|].
  simpl nonempty. apply truthy_true. rewrite join_nil_iff by assumption. discriminate.
Qed.

Lemma simulates_flush (page_num : Z) (st : chunker) (g : grouper) :
  simulates page_num st g -> current_group g <> [] ->
  chunks st ++ [make_chunk page_num (chunk_id st) (current_chunk st)]
  = map (chunk_of_group page_num) (enumerate 0 (groups g ++ [current_group g])).
Proof.
  intros [Hch Hc Hid Ht] Hne.
  rewrite enumerate_app, map_app, <- Hch. f_equal. simpl.
  unfold make_chunk, chunk_of_group, chunk_id_of. simpl.
  rewrite Hid, Hc, tight_strip by (now apply join_tight). reflexivity.
Qed.

Lemma chunk_step_skip (page_num chunk_size : Z) (st : chunker) (para : str) :
  truthy (strip para) = false -> chunk_step page_num chunk_size st para = st.
Proof. unfold chunk_step. intros ->. reflexivity. Qed.

Lemma chunk_step_simulates (page_num chunk_size : Z) (st : chunker) (g : grouper) (para : str) :
  simulates page_num st g -> truthy (strip para) = true ->
  simulates page_num (chunk_step page_num chunk_size st para)
    (group_step chunk_size g (strip para)).
Proof.
  intros Hsim Hp.
  assert (Htp : tight (strip para) = true).
  { destruct (strip_tight para) as [Hn|Ht]; [|exact Ht]. rewrite Hn in Hp. discriminate. }
  unfold chunk_step, group_step. rewrite Hp. simpl negb. cbv iota.
  rewrite (simulates_truthy _ _ _ Hsim), <- (sim_current _ _ _ Hsim).
  destruct ((len (current_chunk st) + len (strip para) >? chunk_size)
            && nonempty (current_group g)) eqn:Hflush.
  - apply andb_true_iff in Hflush as [_ Hne]. apply nonempty_true in Hne.
    constructor; simpl.
    + now apply simulates_flush.
    + reflexivity.
    + rewrite length_app, (sim_ordinal _ _ _ Hsim). simpl. lia.
    + now constructor.
  - constructor; simpl.
    + apply (sim_chunks _ _ _ Hsim).
    + rewrite join_snoc, (sim_current _ _ _ Hsim).
      destruct (current_group g); simpl; reflexivity.
    + apply (sim_ordinal _ _ _ Hsim).
    + apply Forall_app. split; [apply (sim_tight _ _ _ Hsim)|now constructor].
Qed.

Lemma chunk_loop_simulates (page_num chunk_size : Z) (pieces : list str) :
  forall st g, simulates page_num st g ->
    simulates page_num
      (fold_left (chunk_step page_num chunk_size) pieces st)
      (fold_left (group_step chunk_size) (filter truthy (map strip pieces)) g).
Proof.
  induction pieces as [|para pieces IH]; intros st g Hsim; simpl; [exact Hsim|].
  destruct (truthy (strip para)) eqn:Hp.
  - simpl. apply IH. now apply chunk_step_simulates.
  - rewrite chunk_step_skip by assumption. now apply IH.
Qed.

Lemma chunker_finish_simulates (page_num : Z) (st : chunker) (g : grouper) :
  simulates page_num st g ->
  chunker_finish page_num st
  = map (chunk_of_group page_num) (enumerate 0 (group_finish g)).
Proof.
  intros Hsim. unfold chunker_finish, group_finish.
  destruct (current_group g) as [|p ps] eqn:Hg.
  - rewrite (sim_current _ _ _ Hsim), Hg. simpl. apply (sim_chunks _ _ _ Hsim).
  - assert (Ht : tight (current_chunk st) = true).
    { rewrite (sim_current _ _ _ Hsim). apply join_tight.
      - rewrite Hg. discriminate.
      - apply (sim_tight _ _ _ Hsim). }
    rewrite (tight_strip _ Ht).
    assert (Hne : truthy (current_chunk st) = true)
      by (apply truthy_true; now apply tight_nonempty).
    rewrite Hne. simpl nonempty. cbv iota. rewrite <- Hg.
    apply simulates_flush; [exact Hsim|]. rewrite Hg. discriminate.
Qed.

(** The chunks are exactly the groups of the paragraph-level reading, each
    joined by blank lines and numbered from 0. *)
Lemma chunk_text_simple_groups (text : str) (page_num chunk_size : Z) :
  chunk_text_simple text page_num chunk_size
  = map (chunk_of_group page_num)
      (enumerate 0 (group_paragraphs chunk_size (paragraphs text))).
Proof.
  unfold chunk_text_simple, group_paragraphs, paragraphs.
  apply chunker_finish_simulates, chunk_loop_simulates.
  constructor; simpl; auto.
Qed.

(** ** Grouping of paragraphs *)

Lemma group_step_ok (chunk_size : Z) (g : grouper) (p : str) :
  grouper_ok chunk_size g -> grouper_ok chunk_size (group_step chunk_size g p).
Proof.
  intros [Hne Hw Hc]. unfold group_step.
  destruct ((len (join blank_line (current_group g)) + len p >? chunk_size)
            && nonempty (current_group g)) eqn:Hflush.
  - apply andb_true_iff in Hflush as [_ Hcur]. apply nonempty_true in Hcur.
    constructor; simpl.
    + apply Forall_app. split; [assumption|]. now constructor.
    + apply Forall_app. split; [assumption|]. constructor; [|constructor].
      destruct Hc; [contradiction|assumption].
    + right. left. now exists p.
  - constructor; simpl; try assumption.
    right. destruct (current_group g) as [|q qs] eqn:Hg.
    + left. now exists p.
    + right. simpl nonempty in Hflush. rewrite andb_true_r in Hflush.
      rewrite Z.gtb_ltb in Hflush. apply Z.ltb_ge in Hflush.
      rewrite total_len_app. simpl total_len at 2.
      pose proof (total_len_le_join blank_line (q :: qs)). lia.
Qed.

Lemma group_loop_ok (chunk_size : Z) (ps : list str) :
  forall g, grouper_ok chunk_size g ->
    grouper_ok chunk_size (fold_left (group_step chunk_size) ps g).
Proof.
  induction ps as [|p ps IH]; intros g Hok; simpl; [exact Hok|].
  apply IH. now apply group_step_ok.
Qed.

Lemma group_step_concat (chunk_size : Z) (g : grouper) (p : str) :
  concat (groups (group_step chunk_size g p)) ++ current_group (group_step chunk_size g p)
  = (concat (groups g) ++ current_group g) ++ [p].
Proof.
  unfold group_step.
  destruct ((len (join blank_line (current_group g)) + len p >? chunk_size)
            && nonempty (current_group g)); simpl.
  - rewrite concat_app. simpl. now rewrite app_nil_r.
  - now rewrite app_assoc.
Qed.

Lemma group_loop_concat (chunk_size : Z) (ps : list str) :
  forall g,
    concat (groups (fold_left (group_step chunk_size) ps g))
      ++ current_group (fold_left (group_step chunk_size) ps g)
    = (concat (groups g) ++ current_group g) ++ ps.
Proof.
  induction ps as [|p ps IH]; intros g; simpl; [now rewrite app_nil_r|].
  rewrite IH, group_step_concat. now rewrite <- app_assoc.
Qed.

Lemma group_finish_concat (g : grouper) :
  concat (group_finish g) = concat (groups g) ++ current_group g.
Proof.
  unfold group_finish. destruct (current_group g) as [|p ps]; simpl.
  - now rewrite app_nil_r.
  - rewrite concat_app. simpl. now rewrite app_nil_r.
Qed.

(** The groups partition the paragraphs, in order. *)
Lemma group_paragraphs_concat (chunk_size : Z) (ps : list str) :
  concat (group_paragraphs chunk_size ps) = ps.
Proof.
  unfold group_paragraphs. rewrite group_finish_concat, group_loop_concat. reflexivity.
Qed.

Lemma group_paragraphs_ok (chunk_size : Z) (ps : list str) :
  Forall (fun grp => grp <> [] /\ within chunk_size grp) (group_paragraphs chunk_size ps).
Proof.
  unfold group_paragraphs.
  assert (Hok : grouper_ok chunk_size
                  (fold_left (group_step chunk_size) ps {| groups := []; current_group := [] |})).
  { apply group_loop_ok. constructor; simpl; auto. }
  destruct Hok as [Hne Hw Hc]. unfold group_finish.
  set (g := fold_left _ _ _) in *.
  assert (Hboth : Forall (fun grp => grp <> [] /\ within chunk_size grp) (groups g)).
  { apply Forall_forall. intros grp Hin. split.
    - now apply (proj1 (Forall_forall _ _) Hne).
    - now apply (proj1 (Forall_forall _ _) Hw). }
  destruct (current_group g) as [|p qs] eqn:Hg; simpl; [exact Hboth|].
  apply Forall_app. split; [exact Hboth|]. constructor; [|constructor].
  split; [discriminate|]. destruct Hc as [Hc|Hc]; [discriminate|exact Hc].
Qed.

Lemma in_concat_group {A : Type} (ls : list (list A)) (l : list A) (x : A) :
  In l ls -> In x l -> In x (concat ls).
Proof. intros Hl Hx. apply in_concat. now exists l. Qed.

(** What membership in the chunker's output means at paragraph level. *)
Lemma chunk_text_simple_in (text : str) (page_num chunk_size : Z) (c : Chunk.t) :
  In c (chunk_text_simple text page_num chunk_size) ->
  exists i grp,
    In grp (group_paragraphs chunk_size (paragraphs text))
    /\ c = chunk_of_group page_num (i, grp).
Proof.
  rewrite chunk_text_simple_groups. intros Hin.
  apply in_map_iff in Hin as [[i grp] [Hc Hin]].
  exists i, grp. split; [|now rewrite Hc].
  rewrite <- (map_snd_enumerate (group_paragraphs _ _) 0).
  apply in_map_iff. now exists (i, grp).
Qed.

(** ** Chunk sizes *)

Lemma group_step_slack (chunk_size : Z) (g : grouper) (p : str) :
  Forall (slack chunk_size) (groups g) ->
  current_group g = [] \/ slack chunk_size (current_group g) ->
  Forall (slack chunk_size) (groups (group_step chunk_size g p))
  /\ slack chunk_size (current_group (group_step chunk_size g p)).
Proof.
  intros Hgroups Hcur. unfold group_step.
  destruct ((len (join blank_line (current_group g)) + len p >? chunk_size)
            && nonempty (current_group g)) eqn:Hflush; simpl.
  - apply andb_true_iff in Hflush as [_ Hne]. apply nonempty_true in Hne. split.
    + apply Forall_app. split; [assumption|]. constructor; [|constructor].
      destruct Hcur; [contradiction|assumption].
    + left. now exists p.
  - split; [assumption|].
    destruct (current_group g) as [|q qs] eqn:Hg; [left; now exists p|].
    right. simpl nonempty in Hflush. rewrite andb_true_r, Z.gtb_ltb in Hflush.
    apply Z.ltb_ge in Hflush.
    rewrite join_snoc, !len_app. change (len blank_line) with 2. lia.
Qed.

Lemma group_paragraphs_slack (chunk_size : Z) (ps : list str) :
  Forall (slack chunk_size) (group_paragraphs chunk_size ps).
Proof.
  unfold group_paragraphs.
  assert (Hgen : forall g,
             Forall (slack chunk_size) (groups g) ->
             current_group g = [] \/ slack chunk_size (current_group g) ->
             Forall (slack chunk_size) (group_finish (fold_left (group_step chunk_size) ps g))).
  { induction ps as [|p ps IH]; intros g Hgroups Hcur; simpl.
    - unfold group_finish. destruct (current_group g) as [|q qs] eqn:Hg; simpl;
        [assumption|].
      apply Forall_app. split; [assumption|]. constructor; [|constructor].
      destruct Hcur; [discriminate|assumption].
    - destruct (group_step_slack chunk_size g p Hgroups Hcur) as [Hg' Hc'].
      apply IH; [exact Hg'|now right]. }
  apply Hgen; simpl; auto.
Qed.

(** A chunk is a single paragraph of the text, or it is at most two
    characters longer than the threshold: the separator added last is not
    counted by the test of line 73. *)
Lemma chunk_text_simple_joined_bound (text : str) (page_num chunk_size : Z) (c : Chunk.t) :
  In c (chunk_text_simple text page_num chunk_size) ->
  In (Chunk.text c) (paragraphs text) \/ len (Chunk.text c) <= chunk_size + 2.
Proof.
  intros Hin. apply chunk_text_simple_in in Hin as (i & grp & Hgrp & ->). simpl.
  pose proof (proj1 (Forall_forall _ _) (group_paragraphs_slack chunk_size (paragraphs text))
                grp Hgrp) as [[p ->]|Hlen].
  - left. simpl. rewrite <- (group_paragraphs_concat chunk_size (paragraphs text)).
    apply in_concat_group with [p]; [exact Hgrp|now left].
  - now right.
Qed.



Lemma chunk_text_simple_joined_bound_witness :
  In (make_chunk 7 0 (lit "aaa" ++ blank_line ++ lit "bb"))
     (chunk_text_simple (lit "aaa" ++ blank_line ++ lit "bb") 7 5)
  /\ (In (Chunk.text (make_chunk 7 0 (lit "aaa" ++ blank_line ++ lit "bb")))
         (paragraphs (lit "aaa" ++ blank_line ++ lit "bb"))
      \/ len (Chunk.text (make_chunk 7 0 (lit "aaa" ++ blank_line ++ lit "bb"))) <= 5 + 2).
Proof.
  assert (Hin : In (make_chunk 7 0 (lit "aaa" ++ blank_line ++ lit "bb"))
                  (chunk_text_simple (lit "aaa" ++ blank_line ++ lit "bb") 7 5))
    by (vm_compute; auto).
  split; [exact Hin|].
  exact (chunk_text_simple_joined_bound _ 7 5 _ Hin).
Defined.

(** C1, as amended. Every chunk of [chunk_text_simple text page_num chunk_size]
    is the blank-line join of a non-empty run of stripped paragraphs of the
    text, and either it holds exactly one paragraph (which may be of any
    length: a paragraph longer than the threshold is never split, and each
    such paragraph gives a chunk of its own) or the lengths of its
    paragraphs add up to at most the threshold. *)
Theorem chunk_text_simple_size (text : str) (page_num chunk_size : Z) (c : Chunk.t) :
  In c (chunk_text_simple text page_num chunk_size) ->
  exists grp,
    grp <> []
    /\ incl grp (paragraphs text)
    /\ Chunk.text c = join blank_line grp
    /\ ((exists p, grp = [p]) \/ total_len grp <= chunk_size).
Proof.
  intros Hin. apply chunk_text_simple_in in Hin as (i & grp & Hgrp & ->).
  exists grp.
  pose proof (proj1 (Forall_forall _ _) (group_paragraphs_ok chunk_size (paragraphs text))
                grp Hgrp) as [Hne Hw].
  repeat split; try assumption.
  intros p Hp. rewrite <- (group_paragraphs_concat chunk_size (paragraphs text)).
  now apply in_concat_group with grp.
Qed.

Lemma chunk_text_simple_size_witness :
  In (make_chunk 1 0 (lit "aaa" ++ blank_line ++ lit "bb"))
     (chunk_text_simple (lit "aaa" ++ blank_line ++ lit "bb" ++ blank_line ++ lit "cccc") 1 5)
  /\ exists grp,
       grp <> []
       /\ incl grp (paragraphs (lit "aaa" ++ blank_line ++ lit "bb" ++ blank_line ++ lit "cccc"))
       /\ Chunk.text (make_chunk 1 0 (lit "aaa" ++ blank_line ++ lit "bb"))
          = join blank_line grp
       /\ ((exists p, grp = [p]) \/ total_len grp <= 5).
Proof.
  assert (Hin : In (make_chunk 1 0 (lit "aaa" ++ blank_line ++ lit "bb"))
                  (chunk_text_simple
                     (lit "aaa" ++ blank_line ++ lit "bb" ++ blank_line ++ lit "cccc") 1 5))
    by (vm_compute; auto).
  split; [exact Hin|].
  exact (chunk_text_simple_size _ 1 5 _ Hin).
Defined.

(** C1 as stated fails: with two paragraphs that both exceed the threshold,
    one call yields two oversized chunks. *)
Lemma chunk_text_simple_two_oversized :
  let cs := chunk_text_simple (lit "aaaaaa" ++ blank_line ++ lit "bbbbbb") 1 5 in
  map Chunk.text cs = [lit "aaaaaa"; lit "bbbbbb"]
  /\ ~ (length (filter (fun c => len (Chunk.text c) >? 5) cs) <= 1)%nat.
Proof. vm_compute. split; [reflexivity|lia]. Qed.

(** The separator is not counted by the test of line 73: two paragraphs
    that fit the threshold together are joined into a chunk two characters
    longer than their sum. *)
Example chunk_text_simple_separator_not_counted :
  map Chunk.text (chunk_text_simple (lit "aaa" ++ blank_line ++ lit "bb") 1 5)
  = [lit "aaa" ++ blank_line ++ lit "bb"]
  /\ len (lit "aaa" ++ blank_line ++ lit "bb") = 7.
Proof. vm_compute. auto. Qed.

(** ** Chunk ids *)

Lemma NoDup_map_inj {A B : Type} (f : A -> B) (l : list A) :
  (forall x y, f x = f y -> x = y) -> NoDup l -> NoDup (map f l).
Proof.
  intros Hinj Hnd. induction Hnd as [|x l Hx Hnd IH]; simpl; constructor; [|exact IH].
  intros Hin. apply in_map_iff in Hin as [y [Hxy Hy]]. apply Hinj in Hxy. now subst.
Qed.

(** C6. The ids of the chunks of one call are the page number combined with
    the ordinals 0, 1, 2, ... of the chunks, in order, and are pairwise
    distinct. The id sequence is thereby fixed by (text, page, threshold):
    [chunk_text_simple] reads nothing else, so a second run on the same
    input gives the same ids. *)
Theorem chunk_text_simple_ids (text : str) (page_num chunk_size : Z) :
  let cs := chunk_text_simple text page_num chunk_size in
  map Chunk.id cs = map (chunk_id_of page_num) (seq 0 (length cs))
  /\ NoDup (map Chunk.id cs).
Proof.
  cbv zeta.
  assert (Hids : map Chunk.id (chunk_text_simple text page_num chunk_size)
                 = map (chunk_id_of page_num)
                     (seq 0 (length (chunk_text_simple text page_num chunk_size)))).
  { rewrite chunk_text_simple_groups.
    rewrite length_map, enumerate_length, map_map.
    rewrite <- (map_fst_enumerate (group_paragraphs chunk_size (paragraphs text)) 0).
    now rewrite map_map. }
  split; [exact Hids|].
  rewrite Hids. apply NoDup_map_inj; [apply chunk_id_of_inj|apply seq_NoDup].
Qed.

(** ** No paragraph is lost *)

(** C9. The texts of the chunks are the blank-line joins of consecutive,
    non-empty runs of the stripped non-blank paragraphs of the input, and
    the runs put end to end are exactly those paragraphs in input order: each
    paragraph is in exactly one chunk, and nothing else is. *)
Theorem chunk_text_simple_partition (text : str) (page_num chunk_size : Z) :
  exists runs : list (list str),
    concat runs = paragraphs text
    /\ Forall (fun run => run <> []) runs
    /\ map Chunk.text (chunk_text_simple text page_num chunk_size)
       = map (join blank_line) runs.
Proof.
  exists (group_paragraphs chunk_size (paragraphs text)). split; [|split].
  - apply group_paragraphs_concat.
  - eapply Forall_impl; [|apply group_paragraphs_ok]. now intros run [Hne _].
  - rewrite chunk_text_simple_groups, map_map.
    rewrite <- (map_snd_enumerate (group_paragraphs chunk_size (paragraphs text)) 0) at 2.
    now rewrite map_map.
Qed.

(** ** A page with text gives at least one chunk *)

Lemma lstrip_nil_iff (s : str) : lstrip s = [] <-> forallb isspace s = true.
Proof.
  induction s as [|c s IH]; simpl; [tauto|].
  destruct (isspace c); simpl; [exact IH|]. split; discriminate.
Qed.

Lemma strip_nil_of_spaces (s : str) : forallb isspace s = true -> strip s = [].
Proof. intros H. unfold strip. apply lstrip_nil_iff in H. now rewrite H. Qed.

Lemma spaces_of_strip_nil (s : str) : strip s = [] -> forallb isspace s = true.
Proof.
  unfold strip. intros H. apply lstrip_nil_iff.
  destruct (lstrip_first s) as [Hn|Hf]; [exact Hn|].
  apply rstrip_tight, tight_nonempty in Hf. contradiction.
Qed.

Lemma join_spaces (l : list str) :
  Forall (fun p => forallb isspace p = true) l ->
  forallb isspace (join blank_line l) = true.
Proof.
  induction l as [|a l IH]; intros Hall; [reflexivity|].
  inversion Hall as [|? ? Ha Hl]; subst.
  destruct l as [|b l]; [exact Ha|].
  change (join blank_line (a :: b :: l)) with (a ++ blank_line ++ join blank_line (b :: l)).
  rewrite !forallb_app, Ha, (IH Hl). reflexivity.
Qed.

Lemma paragraphs_nonempty (text : str) : tight text = true -> paragraphs text <> [].
Proof.
  intros Ht Hnil.
  assert (Hsp : Forall (fun p => forallb isspace p = true) (split_blank_lines text)).
  { apply Forall_forall. intros p Hp. apply spaces_of_strip_nil.
    destruct (strip p) as [|c r] eqn:Hs; [reflexivity|].
    assert (Hin : In (strip p) (paragraphs text)).
    { unfold paragraphs. apply filter_In. split; [now apply in_map|]. now rewrite Hs. }
    rewrite Hnil in Hin. contradiction. }
  apply join_spaces in Hsp. rewrite join_split_blank_lines in Hsp.
  apply strip_nil_of_spaces in Hsp. rewrite (tight_strip _ Ht) in Hsp.
  now apply tight_nonempty in Ht.
Qed.

Lemma chunk_text_simple_nonempty (text : str) (page_num chunk_size : Z) :
  tight text = true -> chunk_text_simple text page_num chunk_size <> [].
Proof.
  intros Ht Hnil. apply (paragraphs_nonempty text Ht).
  rewrite <- (group_paragraphs_concat chunk_size (paragraphs text)).
  rewrite chunk_text_simple_groups in Hnil.
  apply map_eq_nil in Hnil.
  destruct (group_paragraphs chunk_size (paragraphs text)); [reflexivity|discriminate].
Qed.

(** ** Indexing *)

Section Indexing.
Context {E : Embedding}.

Lemma zip_stored_length (ids : list str) (embeddings : list vector)
    (documents : list str) (metas : list metadata) :
  length embeddings = length ids -> length documents = length ids ->
  length metas = length ids ->
  length (zip_stored ids embeddings documents metas) = length ids.
Proof.
  revert embeddings documents metas.
  induction ids as [|i ids IH]; intros [|e es] [|d ds] [|m ms]; simpl;
    try discriminate; try reflexivity.
  intros He Hd Hm. f_equal. apply IH; lia.
Qed.

Lemma store_batch_nil (c : collection) : store_batch c [] = (0%nat, c, []).
Proof. reflexivity. Qed.

Lemma store_batch_count (c : collection) (chunks : list Chunk.t) :
  let '(indexed, c', calls) := store_batch c chunks in
  indexed = length chunks
  /\ collection_count c' = (collection_count c + length chunks)%nat
  /\ (chunks = [] -> c' = c /\ calls = [])
  /\ (chunks <> [] -> forallb batch_nonempty calls = true).
Proof.
  destruct chunks as [|k ks]; simpl.
  - repeat split; auto.
  - repeat split; try discriminate.
    unfold collection_count, collection_add, encode. rewrite length_app.
    rewrite zip_stored_length; rewrite ?length_map; simpl; rewrite ?length_map; lia.
Qed.

Lemma index_page_inv (c0 : collection) (met : nat) (st : indexer) (p : Z * str) :
  indexer_inv c0 met st ->
  chunk_text_simple (snd p) (fst p) default_chunk_size <> [] ->
  indexer_inv c0 (met + length (chunk_text_simple (snd p) (fst p) default_chunk_size))
    (index_page st p).
Proof.
  intros [Hcount Htotal Hcalls Hidle] Hne. destruct p as [page_num page_text].
  cbn [fst snd] in Hne |- *. unfold index_page.
  set (page_chunks := chunk_text_simple page_text page_num default_chunk_size) in *.
  assert (Hlen : (0 < length page_chunks)%nat)
    by (destruct page_chunks; [congruence|simpl; lia]).
  destruct (BATCH_SIZE <=? length (all_chunks st ++ page_chunks))%nat.
  - pose proof (store_batch_count (ix_collection st) (all_chunks st ++ page_chunks)) as Hsb.
    destruct (store_batch (ix_collection st) (all_chunks st ++ page_chunks))
      as [[indexed c'] calls].
    destruct Hsb as (Hi & Hc & _ & Hb).
    constructor; simpl.
    + rewrite Hc, Hcount. lia.
    + rewrite Hi, length_app. lia.
    + rewrite !forallb_app, Hcalls. simpl. apply Hb.
      intros Hnil. apply (f_equal (@length _)) in Hnil. rewrite length_app in Hnil.
      simpl in Hnil. lia.
    + lia.
  - constructor; simpl.
    + exact Hcount.
    + rewrite length_app. lia.
    + rewrite forallb_app, Hcalls. reflexivity.
    + lia.
Qed.

Lemma extract_pages_from_tight (pages : list str) :
  forall page_num,
    Forall (fun p => tight (snd p) = true) (extract_pages_from page_num pages).
Proof.
  induction pages as [|page_text rest IH]; intros page_num; simpl; [constructor|].
  apply Forall_app. split; [|apply IH].
  destruct (truthy page_text && truthy (strip page_text)) eqn:Hy; [|constructor].
  constructor; [|constructor]. simpl.
  apply andb_true_iff in Hy as [_ Hs].
  destruct (strip_tight page_text) as [Hn|Ht]; [|exact Ht].
  rewrite Hn in Hs. discriminate.
Qed.

Lemma index_loop_inv (c0 : collection) (pages : list (Z * str)) :
  Forall (fun p => tight (snd p) = true) pages ->
  forall met st, indexer_inv c0 met st ->
    indexer_inv c0
      (met + length (flat_map (fun p => chunk_text_simple (snd p) (fst p) default_chunk_size)
                       pages))
      (fold_left index_page pages st).
Proof.
  induction 1 as [|p pages Hp Hall IH]; intros met st Hinv; simpl.
  - now rewrite Nat.add_0_r.
  - rewrite length_app, Nat.add_assoc. apply IH. apply index_page_inv; [exact Hinv|].
    now apply chunk_text_simple_nonempty.
Qed.

Lemma index_finish_inv (c0 : collection) (met : nat) (st : indexer) :
  indexer_inv c0 met st ->
  let '(n, c, calls) := index_finish st in
  n = met
  /\ collection_count c = (collection_count c0 + met)%nat
  /\ forallb batch_nonempty calls = true
  /\ (met = 0%nat -> c = c0 /\ calls = []).
Proof.
  intros [Hcount Htotal Hcalls Hidle]. unfold index_finish.
  destruct (all_chunks st) as [|k ks] eqn:Hall.
  - simpl in Htotal. repeat split; try tauto; try lia.
  - pose proof (store_batch_count (ix_collection st) (k :: ks)) as Hsb.
    destruct (store_batch (ix_collection st) (k :: ks)) as [[indexed c'] calls].
    destruct Hsb as (Hi & Hc & _ & Hb). simpl length in *.
    repeat split; try lia.
    rewrite forallb_app, Hcalls. apply Hb. discriminate.
Qed.

(** An indexing pass over an empty store: the count returned is the number
    of chunks the source yields, the store holds as many tuples afterwards,
    no empty batch is embedded or written, and a source that yields nothing
    leaves the store untouched without any call. *)
Lemma process_and_store_pdf_fresh (c : collection) (pdf : list str) :
  collection_count c = 0%nat ->
  let '(n, c', calls) := process_and_store_pdf c pdf in
  n = length (corpus_chunks pdf)
  /\ collection_count c' = length (corpus_chunks pdf)
  /\ forallb batch_nonempty calls = true
  /\ (corpus_chunks pdf = [] -> c' = c /\ calls = []).
Proof.
  intros Hempty. unfold process_and_store_pdf. rewrite Hempty. simpl Nat.ltb. cbv iota.
  set (st0 := {| all_chunks := []; total_indexed := 0; ix_collection := c; ix_calls := [] |}).
  assert (Hinv0 : indexer_inv c 0 st0) by (constructor; simpl; auto).
  pose proof (index_loop_inv c (extract_pages_generator pdf)
                (extract_pages_from_tight pdf 0) 0%nat st0 Hinv0) as Hinv.
  apply index_finish_inv in Hinv. fold (corpus_chunks pdf) in Hinv.
  destruct (index_finish (fold_left index_page (extract_pages_generator pdf) st0))
    as [[n c'] calls].
  destruct Hinv as (Hn & Hc & Hb & Hidle). simpl in Hn, Hc.
  split; [exact Hn|]. split; [lia|]. split; [exact Hb|].
  intros Hnil. rewrite Hnil in Hidle. now apply Hidle.
Qed.

Lemma process_and_store_pdf_guard (c : collection) (pdf : list str) :
  collection_count c <> 0%nat ->
  process_and_store_pdf c pdf = (collection_count c, c, []).
Proof.
  intros Hne. unfold process_and_store_pdf.
  destruct (0 <? collection_count c)%nat eqn:Hlt; [reflexivity|].
  apply Nat.ltb_ge in Hlt. lia.
Qed.

End Indexing.

Section IndexingClaims.
Context {E : Embedding}.

(** C2. Indexing is idempotent by presence. When [process_and_store_pdf] is
    run a second time on the same source, on the store the first run left,
    the second run chunks nothing, embeds nothing and writes nothing; it
    leaves the store as it was and returns the store's record count, which
    is also what the first run returned. *)
Theorem process_and_store_pdf_idempotent (c : collection) (pdf : list str) :
  let '(n1, c1, calls1) := process_and_store_pdf c pdf in
  let '(n2, c2, calls2) := process_and_store_pdf c1 pdf in
  calls2 = []
  /\ c2 = c1
  /\ n2 = collection_count c1
  /\ collection_count c2 = collection_count c1
  /\ n2 = n1.
Proof.
  destruct (Nat.eq_dec (collection_count c) 0) as [Hempty|Hfull].
  - pose proof (process_and_store_pdf_fresh c pdf Hempty) as Hfirst.
    destruct (process_and_store_pdf c pdf) as [[n1 c1] calls1].
    destruct Hfirst as (Hn1 & Hc1 & _ & Hidle).
    destruct (corpus_chunks pdf) as [|k ks] eqn:Hcorpus.
    + destruct (Hidle eq_refl) as [-> _].
      pose proof (process_and_store_pdf_fresh c pdf Hempty) as Hsecond.
      destruct (process_and_store_pdf c pdf) as [[n2 c2] calls2].
      destruct Hsecond as (Hn2 & Hc2 & _ & Hidle2).
      rewrite Hcorpus in *. destruct (Hidle2 eq_refl) as [-> ->].
      simpl in *. repeat split; congruence.
    + rewrite process_and_store_pdf_guard by (rewrite Hc1; discriminate).
      repeat split; congruence.
  - rewrite process_and_store_pdf_guard by assumption.
    rewrite process_and_store_pdf_guard by assumption.
    repeat split; reflexivity.
Qed.

(** C10. Flushing an empty batch is a no-op: [_store_batch] on an empty
    list returns 0, calls neither the embedding model nor the store and
    leaves the store as it is. No run of the indexer hands an empty batch
    to the embedding model or to the store; and when the source yields no
    chunk, the run makes no call at all, leaves the store unchanged and
    returns the store's count, which is 0 for the empty store an indexing
    pass starts from. *)
Theorem store_batch_empty_noop (c : collection) (pdf : list str) :
  store_batch c [] = (0%nat, c, [])
  /\ forallb batch_nonempty (snd (process_and_store_pdf c pdf)) = true
  /\ (corpus_chunks pdf = [] ->
      process_and_store_pdf c pdf = (collection_count c, c, [])
      /\ (c = [] -> fst (fst (process_and_store_pdf c pdf)) = 0%nat)).
Proof.
  split; [reflexivity|].
  destruct (Nat.eq_dec (collection_count c) 0) as [Hempty|Hfull].
  - pose proof (process_and_store_pdf_fresh c pdf Hempty) as Hrun.
    destruct (process_and_store_pdf c pdf) as [[n c'] calls].
    destruct Hrun as (Hn & Hc & Hb & Hidle). simpl.
    split; [exact Hb|]. intros Hnil. destruct (Hidle Hnil) as [-> ->].
    rewrite Hnil in Hn. simpl in Hn. subst n. rewrite Hempty. auto.
  - rewrite process_and_store_pdf_guard by assumption. simpl.
    split; [reflexivity|]. intros _. split; [reflexivity|].
    intros ->. now simpl in Hfull.
Qed.

End IndexingClaims.

(** A source of two blank pages yields no chunk: nothing is embedded or
    written. *)
Lemma store_batch_empty_noop_witness :
  corpus_chunks [lit "   "; []] = []
  /\ @process_and_store_pdf length_embedding [] [lit "   "; []] = (0%nat, [], []).
Proof.
  split; [reflexivity|].
  exact (proj1 (proj2 (proj2 (@store_batch_empty_noop length_embedding [] [lit "   "; []]))
                 eq_refl)).
Defined.

(** ** Retrieval *)

Section Retrieval.
Context {E : Embedding}.

Lemma nearer_trans (q : vector) (a b c : stored) :
  nearer q a b -> nearer q b c -> nearer q a c.
Proof. unfold nearer. apply Qle_trans. Qed.

Lemma insert_by_distance_perm (q : vector) (r : stored) (l : list stored) :
  Permutation (insert_by_distance q r l) (r :: l).
Proof.
  induction l as [|r' l IH]; simpl; [reflexivity|].
  destruct (Qle_bool _ _); [reflexivity|].
  rewrite IH. apply perm_swap.
Qed.

Lemma insert_by_distance_sorted (q : vector) (r : stored) (l : list stored) :
  StronglySorted (nearer q) l -> StronglySorted (nearer q) (insert_by_distance q r l).
Proof.
  induction 1 as [|r' l Hsorted IH Hall]; simpl.
  - constructor; constructor.
  - destruct (Qle_bool (distance q (st_embedding r)) (distance q (st_embedding r'))) eqn:Hle.
    + apply Qle_bool_iff in Hle. constructor.
      * now constructor.
      * constructor; [exact Hle|].
        eapply Forall_impl; [|exact Hall]. intros x Hx. now apply nearer_trans with r'.
    + assert (Hge : nearer q r' r).
      { unfold nearer. apply Qlt_le_weak, Qnot_le_lt. intros Habs.
        apply Qle_bool_iff in Habs. congruence. }
      constructor; [exact IH|].
      apply (Permutation_Forall (Permutation_sym (insert_by_distance_perm q r l))).
      now constructor.
Qed.

Lemma rank_by_distance_perm (q : vector) (c : collection) :
  Permutation (rank_by_distance q c) c.
Proof.
  induction c as [|r c IH]; simpl; [reflexivity|].
  rewrite insert_by_distance_perm. now constructor.
Qed.

Lemma rank_by_distance_sorted (q : vector) (c : collection) :
  StronglySorted (nearer q) (rank_by_distance q c).
Proof.
  induction c as [|r c IH]; simpl; [constructor|].
  now apply insert_by_distance_sorted.
Qed.

Lemma StronglySorted_firstn {A : Type} (R : A -> A -> Prop) (n : nat) (l : list A) :
  StronglySorted R l -> StronglySorted R (firstn n l).
Proof.
  intros Hs. revert n. induction Hs as [|a l Hs IH Hall]; intros [|n]; simpl;
    try constructor.
  - apply IH.
  - apply Forall_forall. intros x Hx.
    apply (proj1 (Forall_forall _ _) Hall).
    rewrite <- (firstn_skipn n l). apply in_or_app. now left.
Qed.

Lemma nearest_sorted (c : collection) (q : vector) (n : Z) :
  StronglySorted (nearer q) (nearest c q n).
Proof. apply StronglySorted_firstn, rank_by_distance_sorted. Qed.

Lemma nearest_length (c : collection) (q : vector) (n : Z) :
  length (nearest c q n) = Nat.min (Z.to_nat n) (collection_count c).
Proof.
  unfold nearest, collection_count.
  rewrite length_firstn, (Permutation_length (rank_by_distance_perm q c)). reflexivity.
Qed.

Lemma nearest_all (c : collection) (q : vector) (n : Z) :
  Z.of_nat (collection_count c) <= n -> Permutation (nearest c q n) c.
Proof.
  intros Hle. unfold nearest. rewrite firstn_all2; [apply rank_by_distance_perm|].
  rewrite (Permutation_length (rank_by_distance_perm q c)).
  unfold collection_count in Hle. lia.
Qed.

Lemma ascending_results (q : vector) (rs : list stored) :
  StronglySorted (nearer q) rs -> ascending (map (result_of q) rs).
Proof.
  intros Hs. exists (map (fun r => distance q (st_embedding r)) rs). split.
  - rewrite !map_map. reflexivity.
  - induction Hs as [|r rs Hs IH Hall]; simpl; constructor; [exact IH|].
    apply Forall_map. exact Hall.
Qed.

Lemma field_at_middle {A B : Type} (f : A -> B) (pre suf : list A) (a : A) :
  field_at (Some [map f (pre ++ a :: suf)]) (length pre) = Ok (Some (f a)).
Proof.
  unfold field_at.
  rewrite nth_error_map, nth_error_app2, Nat.sub_diag by lia. reflexivity.
Qed.

(** The formatting loop of [search] on an answer whose three lists are
    aligned: one entry per document, in the same order, and no exception. *)
Lemma format_loop_aligned (q : vector) (pre suf : list stored) :
  let all := pre ++ suf in
  map_outcome
    (fun '(i, doc) =>
       d <- field_at (Some [map (fun r => distance q (st_embedding r)) all]) i ;;
       m <- field_at (Some [map st_metadata all]) i ;;
       Ok {| sr_text := doc; sr_distance := d; sr_metadata := m |})
    (enumerate (length pre) (map st_document suf))
  = Ok (map (result_of q) suf).
Proof.
  cbv zeta. revert pre. induction suf as [|r suf IH]; intros pre; [reflexivity|].
  cbn [map enumerate map_outcome].
  rewrite !field_at_middle. cbn [bind].
  specialize (IH (pre ++ [r])).
  rewrite <- app_assoc, length_app, Nat.add_1_r in IH. cbn [app length] in IH.
  rewrite IH. reflexivity.
Qed.

Lemma format_results_aligned (q : vector) (rs : list stored) :
  format_results
    {| documents := Some [map st_document rs];
       distances := Some [map (fun r => distance q (st_embedding r)) rs];
       metadatas := Some [map st_metadata rs] |}
  = Ok (map (result_of q) rs).
Proof.
  destruct rs as [|r rs]; [reflexivity|].
  unfold format_results. cbn [documents distances metadatas map].
  apply (format_loop_aligned q [] (r :: rs)).
Qed.

(** [search] with an effective request of at least one result. *)
Lemma search_served (settings : Settings) (c : collection) (query : str)
    (n_results : option Z) :
  1 <= or_default n_results (max_context_chunks settings) ->
  search settings c query n_results
  = Ok (map (result_of (encode_text query))
          (nearest c (encode_text query)
             (or_default n_results (max_context_chunks settings)))).
Proof.
  intros Hn. unfold search, encode, collection_query. simpl map.
  destruct (or_default n_results (max_context_chunks settings) <=? 0) eqn:Hle;
    [apply Z.leb_le in Hle; lia|].
  simpl bind. apply format_results_aligned.
Qed.

(** [search] with an effective request below one: the store refuses. *)
Lemma search_refused (settings : Settings) (c : collection) (query : str)
    (n_results : option Z) :
  or_default n_results (max_context_chunks settings) <= 0 ->
  search settings c query n_results = Raised ValueError.
Proof.
  intros Hn. unfold search, encode, collection_query. simpl map.
  apply Z.leb_le in Hn. rewrite Hn. reflexivity.
Qed.

End Retrieval.

Section RetrievalClaims.
Context {E : Embedding}.

(** C3. For every query and every k >= 1, [search] does not raise and
    returns at most k results, namely min(k, store size) of them, nearest
    first (distances ascending); when the store holds no more than k
    tuples, the empty store included, the results are all the tuples of
    the store. *)
Theorem search_at_most_k (settings : Settings) (c : collection) (query : str) (k : Z) :
  1 <= k ->
  exists rs,
    search settings c query (Some k) = Ok rs
    /\ Z.of_nat (length rs) <= k
    /\ length rs = Nat.min (Z.to_nat k) (collection_count c)
    /\ ascending rs
    /\ (Z.of_nat (collection_count c) <= k ->
        Permutation rs (map (result_of (encode_text query)) c))
    /\ (c = [] -> rs = []).
Proof.
  intros Hk.
  assert (Heff : or_default (Some k) (max_context_chunks settings) = k).
  { simpl. destruct (k =? 0) eqn:Hz; [apply Z.eqb_eq in Hz; lia|reflexivity]. }
  exists (map (result_of (encode_text query)) (nearest c (encode_text query) k)).
  split; [|split; [|split; [|split; [|split]]]].
  - rewrite search_served by (rewrite Heff; exact Hk). now rewrite Heff.
  - rewrite length_map, nearest_length. lia.
  - now rewrite length_map, nearest_length.
  - apply ascending_results, nearest_sorted.
  - intros Hle. apply Permutation_map. now apply nearest_all.
  - intros ->. unfold nearest. simpl. now rewrite firstn_nil.
Qed.

(** C4, as amended. A request for 0 results, like an omitted request, is
    replaced by the configured default and served as that default would
    be; a negative request is not replaced: it reaches the store
    unchanged, the store refuses it and [search] raises. *)
Theorem search_default_k (settings : Settings) (c : collection) (query : str) (k : Z) :
  k < 0 ->
  search settings c query (Some 0)
  = search settings c query (Some (max_context_chunks settings))
  /\ search settings c query None
     = search settings c query (Some (max_context_chunks settings))
  /\ or_default (Some k) (max_context_chunks settings) = k
  /\ search settings c query (Some k) = Raised ValueError.
Proof.
  intros Hk.
  assert (Hsame : forall a b,
             or_default a (max_context_chunks settings)
             = or_default b (max_context_chunks settings) ->
             search settings c query a = search settings c query b).
  { intros a b Hab. unfold search. now rewrite Hab. }
  assert (Heff : or_default (Some k) (max_context_chunks settings) = k).
  { simpl. destruct (k =? 0) eqn:Hz; [apply Z.eqb_eq in Hz; lia|reflexivity]. }
  split; [|split; [|split]].
  - apply Hsame. simpl. now destruct (max_context_chunks settings =? 0) eqn:Hz;
      [apply Z.eqb_eq in Hz|].
  - apply Hsame. simpl. now destruct (max_context_chunks settings =? 0) eqn:Hz;
      [apply Z.eqb_eq in Hz|].
  - exact Heff.
  - apply search_refused. rewrite Heff. lia.
Qed.

End RetrievalClaims.

Lemma search_at_most_k_witness :
  1 <= 5
  /\ exists rs,
       @search length_embedding default_settings two_documents (lit "GCP?") (Some 5) = Ok rs
       /\ Z.of_nat (length rs) <= 5
       /\ length rs = Nat.min (Z.to_nat 5) (collection_count two_documents)
       /\ ascending rs
       /\ (Z.of_nat (collection_count two_documents) <= 5 ->
           Permutation rs
             (map (result_of (@encode_text length_embedding (lit "GCP?"))) two_documents))
       /\ (two_documents = [] -> rs = []).
Proof.
  assert (H : 1 <= 5) by lia.
  split; [exact H|].
  exact (@search_at_most_k length_embedding default_settings two_documents (lit "GCP?") 5 H).
Defined.

Lemma search_default_k_witness :
  -1 < 0
  /\ @search length_embedding default_settings two_documents (lit "GCP?") (Some (-1))
     = Raised ValueError.
Proof.
  assert (H : -1 < 0) by lia.
  split; [exact H|].
  exact (proj2 (proj2 (proj2
    (@search_default_k length_embedding default_settings two_documents (lit "GCP?") (-1) H)))).
Defined.

(** C4 as stated fails: asked for -1 results, [search] does not behave as
    if the default 5 had been requested; it raises, where the default
    request is served. *)
Lemma search_negative_k_not_default :
  or_default (Some (-1)) (max_context_chunks default_settings) = -1
  /\ @search length_embedding default_settings two_documents (lit "GCP?") (Some (-1))
     = Raised ValueError
  /\ @search length_embedding default_settings two_documents (lit "GCP?")
       (Some (max_context_chunks default_settings))
     = Ok [ {| sr_text := lit "GKE"; sr_distance := Some (inject_Z 1);
               sr_metadata := Some (mkMetadata 2) |};
            {| sr_text := lit "Cloud Run"; sr_distance := Some (inject_Z 5);
               sr_metadata := Some (mkMetadata 1) |} ]
  /\ @search length_embedding default_settings two_documents (lit "GCP?") (Some (-1))
     <> @search length_embedding default_settings two_documents (lit "GCP?")
          (Some (max_context_chunks default_settings)).
Proof.
  split; [reflexivity|]. split; [reflexivity|]. split; [reflexivity|].
  discriminate.
Qed.

(** ** The context block *)

Lemma fold_left_snoc_pairs {A B C : Type} (f : A -> B -> C) (l : list (A * B))
    (acc : list C) :
  fold_left (fun parts '(i, a) => parts ++ [f i a]) l acc
  = acc ++ map (fun ia => f (fst ia) (snd ia)) l.
Proof.
  revert acc. induction l as [|[i a] l IH]; intros acc; simpl.
  - now rewrite app_nil_r.
  - rewrite IH, <- app_assoc. reflexivity.
Qed.

Lemma enumerate_combine {A : Type} (l : list A) (start : nat) :
  enumerate start l = combine (seq start (length l)) l.
Proof. revert start. induction l as [|a l IH]; intros; simpl; [reflexivity|]. now f_equal. Qed.

Lemma join_nonempty (sep p : str) (rest : list str) :
  p <> [] -> join sep (p :: rest) <> [].
Proof.
  intros Hp. destruct rest; simpl; [exact Hp|].
  destruct p; [congruence|discriminate].
Qed.

Lemma context_part_nonempty (i : nat) (chunk : search_result) : context_part i chunk <> [].
Proof.
  unfold context_part. intros H. apply (f_equal (@length _)) in H.
  rewrite length_app in H. simpl in H. lia.
Qed.

(** C7. The context block of an empty retrieval is the marker text; that
    of a non-empty retrieval is the chunks' texts, each behind its label
    [[Context i]] and a newline, i counting from 1 in the order retrieved,
    joined by blank lines; in neither case is the block the empty string. *)
Theorem build_context_prompt_labels (chunk : search_result) (rest : list search_result) :
  build_context_prompt []
  = lit "No relevant context found in the documentation."
  /\ build_context_prompt (chunk :: rest)
     = join blank_line
         (map (fun ic => lit "[Context " ++ str_of_nat (fst ic) ++ lit "]"
                           ++ [newline] ++ sr_text (snd ic))
            (combine (seq 1 (length (chunk :: rest))) (chunk :: rest)))
  /\ build_context_prompt [] <> []
  /\ build_context_prompt (chunk :: rest) <> [].
Proof.
  split; [reflexivity|].
  assert (Hparts : build_context_prompt (chunk :: rest)
                   = join blank_line
                       (map (fun ic => context_part (fst ic) (snd ic))
                          (enumerate 1 (chunk :: rest)))).
  { unfold build_context_prompt. now rewrite fold_left_snoc_pairs. }
  split; [|split].
  - rewrite Hparts, enumerate_combine. reflexivity.
  - discriminate.
  - rewrite Hparts. simpl enumerate. simpl map.
    apply join_nonempty, context_part_nonempty.
Qed.

Example build_context_prompt_two :
  build_context_prompt
    [ {| sr_text := lit "A"; sr_distance := None; sr_metadata := None |};
      {| sr_text := lit "B"; sr_distance := None; sr_metadata := None |} ]
  = lit "[Context 1]
A

[Context 2]
B".
Proof. reflexivity. Qed.

(** ** Session history *)

Lemma last_n_short {A : Type} (n : nat) (l : list A) :
  (length l <= n)%nat -> last_n n l = l.
Proof. intros H. unfold last_n. replace (length l - n)%nat with 0%nat by lia. reflexivity. Qed.

Lemma last_n_length {A : Type} (n : nat) (l : list A) :
  length (last_n n l) = Nat.min n (length l).
Proof. unfold last_n. rewrite length_skipn. lia. Qed.

(** Trimming, appending and trimming again is trimming once at the end. *)
Lemma last_n_app_last_n {A : Type} (n : nat) (l x : list A) :
  last_n n (last_n n l ++ x) = last_n n (l ++ x).
Proof.
  destruct (Nat.le_gt_cases (length l) n) as [Hle|Hgt].
  - now rewrite (last_n_short n l Hle).
  - unfold last_n at 1 3. rewrite !length_app, last_n_length.
    replace (Nat.min n (length l)) with n by lia.
    unfold last_n.
    rewrite !skipn_app, length_skipn, skipn_skipn.
    replace (n + length x - n + (length l - n))%nat with (length l + length x - n)%nat by lia.
    f_equal. f_equal. lia.
Qed.

Lemma update_history_last (history : list message) (question answer_text : str) :
  update_history history question answer_text
  = last_n 20 (history ++ exchange question answer_text).
Proof.
  unfold update_history, exchange. rewrite <- app_assoc. simpl app.
  destruct (20 <? length (history ++ _))%nat eqn:Hlt; [reflexivity|].
  apply Nat.ltb_ge in Hlt. now rewrite last_n_short.
Qed.

Lemma update_history_bound (history : list message) (question answer_text : str) :
  (length (update_history history question answer_text) <= 20)%nat.
Proof. rewrite update_history_last, last_n_length. lia. Qed.

Lemma skipn_exchanges (k : nat) (exchanges : list (str * str)) :
  skipn (2 * k) (flat_map (fun qa => exchange (fst qa) (snd qa)) exchanges)
  = flat_map (fun qa => exchange (fst qa) (snd qa)) (skipn k exchanges).
Proof.
  revert exchanges. induction k as [|k IH]; intros exchanges; [reflexivity|].
  destruct exchanges as [|qa exchanges]; [reflexivity|].
  replace (2 * S k)%nat with (S (S (2 * k))) by lia.
  simpl flat_map. unfold exchange at 1. simpl skipn. apply IH.
Qed.

Lemma exchanges_length (exchanges : list (str * str)) :
  length (flat_map (fun qa => exchange (fst qa) (snd qa)) exchanges)
  = (2 * length exchanges)%nat.
Proof. induction exchanges as [|qa l IH]; simpl; [reflexivity|]. rewrite IH. lia. Qed.

Lemma update_history_paired (history : list message) (question answer_text : str) :
  paired history -> paired (update_history history question answer_text).
Proof.
  intros [exchanges ->]. rewrite update_history_last.
  exists (skipn (length (exchanges ++ [(question, answer_text)]) - 10)
            (exchanges ++ [(question, answer_text)])).
  rewrite <- skipn_exchanges, flat_map_app.
  change (flat_map (fun qa => exchange (fst qa) (snd qa)) [(question, answer_text)])
    with (exchange question answer_text).
  unfold last_n. f_equal.
  rewrite !length_app, exchanges_length. simpl length. lia.
Qed.

Lemma paired_alternates (history : list message) :
  paired history -> Nat.even (length history) = true /\ alternates user history = true.
Proof.
  intros [exchanges ->]. split.
  - rewrite exchanges_length. apply Nat.even_spec. now exists (length exchanges).
  - induction exchanges as [|qa l IH]; [reflexivity|]. simpl. exact IH.
Qed.

Section Session.
Context {E : Embedding}.
Variable settings : Settings.

(** What one call of [query] does to the history: on success the exchange
    is appended and the history trimmed; on failure nothing changes. *)
Lemma query_history (llm : completion) (c : collection) (chain : RAGChain)
    (question : str) (include_history : bool) (max_chunks : option Z) :
  match query settings llm c chain question include_history max_chunks with
  | (Ok r, chain') =>
      conversation_history chain'
      = update_history (conversation_history chain) question (answer r)
  | (Raised _, chain') => chain' = chain
  end.
Proof.
  unfold query.
  destruct (search settings c question _) as [relevant|e]; [|reflexivity].
  destruct (llm _ _) as [answer_text|e]; reflexivity.
Qed.

Lemma query_step_history (c : collection) (chain : RAGChain) (q : query_call) :
  query_step settings c chain q = chain
  \/ exists answer_text,
       conversation_history (query_step settings c chain q)
       = update_history (conversation_history chain) (qc_question q) answer_text.
Proof.
  unfold query_step.
  pose proof (query_history (qc_llm q) c chain (qc_question q) (qc_include_history q)
                (qc_max_context_chunks q)) as H.
  destruct (query settings _ c chain _ _ _) as [[r|e] chain']; simpl.
  - right. now exists (answer r).
  - left. exact H.
Qed.

(** An invariant of the history that the fresh chain has and that
    [update_history] keeps holds after every sequence of calls. *)
Lemma run_queries_invariant (P : list message -> Prop) (c : collection) :
  P [] ->
  (forall history question answer_text,
      P history -> P (update_history history question answer_text)) ->
  forall calls, P (conversation_history (run_queries settings c calls)).
Proof.
  intros Hinit Hstep calls. unfold run_queries.
  assert (Hgen : forall chain, P (conversation_history chain) ->
                   P (conversation_history (fold_left (query_step settings c) calls chain))).
  { induction calls as [|q calls IH]; intros chain Hchain; simpl; [exact Hchain|].
    apply IH. destruct (query_step_history c chain q) as [->|[answer_text ->]];
      [exact Hchain|now apply Hstep]. }
  now apply Hgen.
Qed.

Lemma run_logged_spec (c : collection) (calls : list query_call) :
  fst (run_logged settings c calls) = run_queries settings c calls
  /\ conversation_history (run_queries settings c calls)
     = last_n 20 (snd (run_logged settings c calls)).
Proof.
  unfold run_logged, run_queries.
  assert (Hgen : forall chain transcript,
             conversation_history chain = last_n 20 transcript ->
             fst (fold_left (logged_step settings c) calls (chain, transcript))
             = fold_left (query_step settings c) calls chain
             /\ conversation_history (fold_left (query_step settings c) calls chain)
                = last_n 20
                    (snd (fold_left (logged_step settings c) calls (chain, transcript)))).
  { induction calls as [|q calls IH]; intros chain transcript Hchain; simpl; [now split|].
    unfold logged_step at 2 4, query_step at 2 4. simpl fst. simpl snd.
    pose proof (query_history (qc_llm q) c chain (qc_question q) (qc_include_history q)
                  (qc_max_context_chunks q)) as H.
    destruct (query settings _ c chain _ _ _) as [[r|e] chain']; simpl snd.
    - apply IH. rewrite H, update_history_last, Hchain. apply last_n_app_last_n.
    - subst chain'. now apply IH. }
  now apply Hgen.
Qed.

End Session.

Lemma update_history_appends (history : list message) (question answer_text : str) :
  exists dropped kept,
    history = dropped ++ kept
    /\ update_history history question answer_text
       = kept ++ exchange question answer_text.
Proof.
  set (k := (length history + 2 - 20)%nat).
  exists (firstn k history), (skipn k history). split.
  - now rewrite firstn_skipn.
  - rewrite update_history_last. unfold last_n.
    rewrite length_app. simpl length. fold k.
    rewrite skipn_app. replace (k - length history)%nat with 0%nat by lia. reflexivity.
Qed.

Section SessionClaims.
Context {E : Embedding}.
Variable settings : Settings.

(** C5. After any sequence of [query] calls on a session, the history
    holds at most 20 messages, and it is the transcript of the session
    (every message ever appended, oldest first) with its oldest messages
    dropped, so that the most recent 20 remain. *)
Theorem history_capped (c : collection) (calls : list query_call) :
  let history := conversation_history (run_queries settings c calls) in
  let transcript := snd (run_logged settings c calls) in
  (length history <= 20)%nat
  /\ fst (run_logged settings c calls) = run_queries settings c calls
  /\ history = skipn (length transcript - 20) transcript.
Proof.
  cbv zeta. split; [|exact (run_logged_spec settings c calls)].
  apply (run_queries_invariant settings (fun h => (length h <= 20)%nat)).
  - simpl. lia.
  - intros history question answer_text _. apply update_history_bound.
Qed.

(** C8. After any sequence of [query] calls on a session, the history has
    even length and its roles alternate, user first. Each successful call
    appends exactly the user turn holding the raw question followed by the
    assistant turn holding the answer, after dropping messages from the
    front only; a failed call leaves the history as it was. *)
Theorem history_alternates (c : collection) (calls : list query_call)
    (llm : completion) (chain : RAGChain) (question : str)
    (include_history : bool) (max_chunks : option Z) :
  let history := conversation_history (run_queries settings c calls) in
  Nat.even (length history) = true
  /\ alternates user history = true
  /\ match query settings llm c chain question include_history max_chunks with
     | (Ok r, chain') =>
         exists dropped kept,
           conversation_history chain = dropped ++ kept
           /\ conversation_history chain'
              = kept ++ [mkMessage user question; mkMessage assistant (answer r)]
     | (Raised _, chain') => chain' = chain
     end.
Proof.
  cbv zeta.
  assert (Hpaired : paired (conversation_history (run_queries settings c calls))).
  { apply (run_queries_invariant settings paired).
    - now exists [].
    - intros history q a. apply update_history_paired. }
  apply paired_alternates in Hpaired as [Heven Halt].
  split; [exact Heven|]. split; [exact Halt|].
  pose proof (query_history settings llm c chain question include_history max_chunks) as H.
  destruct (query settings llm c chain question include_history max_chunks)
    as [[r|e] chain']; [|exact H].
  rewrite H. apply update_history_appends.
Qed.

End SessionClaims.

(** Twelve answered questions: 24 messages were appended, 20 are kept. *)
Example history_capped_twelve :
  let calls := repeat (mkQueryCall llm_ok (lit "What is Cloud Run?") true None) 12 in
  length (snd (@run_logged length_embedding default_settings two_documents calls)) = 24%nat
  /\ length (conversation_history
               (@run_queries length_embedding default_settings two_documents calls)) = 20%nat.
Proof. vm_compute. split; reflexivity. Qed.

(** * Further properties of the chunker *)

Lemma paragraphs_tight (text : str) : Forall (fun p => tight p = true) (paragraphs text).
Proof.
  unfold paragraphs. apply Forall_forall. intros p Hp.
  apply filter_In in Hp as [Hin Htruthy]. apply in_map_iff in Hin as [raw [<- _]].
  destruct (strip_tight raw) as [Hn|Ht]; [|exact Ht]. rewrite Hn in Htruthy. discriminate.
Qed.

Lemma group_paragraphs_incl (chunk_size : Z) (ps grp : list str) :
  In grp (group_paragraphs chunk_size ps) -> incl grp ps.
Proof.
  intros Hgrp p Hp. rewrite <- (group_paragraphs_concat chunk_size ps).
  now apply in_concat_group with grp.
Qed.

(** Every chunk carries the page number it was made for, and its text is
    not empty and has no leading or trailing whitespace. *)
Theorem chunk_text_simple_fields (text : str) (page_num chunk_size : Z) :
  Forall (fun c => Chunk.page c = page_num
                   /\ Chunk.text c <> []
                   /\ strip (Chunk.text c) = Chunk.text c)
    (chunk_text_simple text page_num chunk_size).
Proof.
  apply Forall_forall. intros c Hin.
  apply chunk_text_simple_in in Hin as (i & grp & Hgrp & ->). simpl.
  assert (Htight : tight (join blank_line grp) = true).
  { apply join_tight.
    - pose proof (proj1 (Forall_forall _ _)
                    (group_paragraphs_ok chunk_size (paragraphs text)) grp Hgrp) as [Hne _].
      exact Hne.
    - apply Forall_forall. intros p Hp.
      apply (proj1 (Forall_forall _ _) (paragraphs_tight text)).
      now apply (group_paragraphs_incl chunk_size _ grp). }
  split; [reflexivity|]. split; [now apply tight_nonempty|now apply tight_strip].
Qed.

Lemma split_blank_lines_chars (s : str) :
  forall p c, In p (split_blank_lines s) -> In c p -> In c s.
Proof.
  assert (H : forall n s, (length s <= n)%nat ->
                forall p c, In p (split_blank_lines s) -> In c p -> In c s).
  { induction n as [|n IH]; intros [|a t] Hlen p c Hp Hc; simpl in Hlen; try lia.
    - destruct Hp as [<-|[]]. contradiction.
    - destruct Hp as [<-|[]]. contradiction.
    - destruct t as [|d u].
      + destruct Hp as [<-|[]]. exact Hc.
      + change (split_blank_lines (a :: d :: u)) with
          (if ((a =? newline) && (d =? newline))%N
           then [] :: split_blank_lines u
           else cons_to_head a (split_blank_lines (d :: u))) in Hp.
        destruct ((a =? newline) && (d =? newline))%N.
        * destruct Hp as [<-|Hp]; [contradiction|].
          right. right. apply (IH u) with p; [simpl in Hlen; lia|assumption|assumption].
        * pose proof (split_blank_lines_nonempty (d :: u)) as Hne.
          destruct (split_blank_lines (d :: u)) as [|q qs] eqn:Hsplit; [congruence|].
          simpl in Hp. destruct Hp as [<-|Hp].
          -- destruct Hc as [<-|Hc]; [now left|].
             right. apply (IH (d :: u)) with q; [simpl in *; lia|rewrite Hsplit; now left|exact Hc].
          -- right. apply (IH (d :: u)) with p; [simpl in *; lia|rewrite Hsplit; now right|exact Hc]. }
  intros p c. apply (H (length s)). lia.
Qed.

Lemma paragraphs_nil_iff (text : str) :
  paragraphs text = [] <-> forallb isspace text = true.
Proof.
  split.
  - intros Hnil.
    assert (Hsp : Forall (fun p => forallb isspace p = true) (split_blank_lines text)).
    { apply Forall_forall. intros p Hp. apply spaces_of_strip_nil.
      destruct (strip p) as [|c r] eqn:Hs; [reflexivity|].
      assert (Hin : In (strip p) (paragraphs text)).
      { unfold paragraphs. apply filter_In. split; [now apply in_map|]. now rewrite Hs. }
      rewrite Hnil in Hin. contradiction. }
    apply join_spaces in Hsp. now rewrite join_split_blank_lines in Hsp.
  - intros Hsp. unfold paragraphs.
    destruct (filter truthy (map strip (split_blank_lines text))) as [|p ps] eqn:Hf;
      [reflexivity|].
    assert (Hin : In p (filter truthy (map strip (split_blank_lines text))))
      by (rewrite Hf; now left).
    apply filter_In in Hin as [Hin Htruthy]. apply in_map_iff in Hin as [raw [<- Hraw]].
    rewrite strip_nil_of_spaces in Htruthy; [discriminate|].
    apply forallb_forall. intros c Hc.
    apply (proj1 (forallb_forall _ _) Hsp). now apply (split_blank_lines_chars text raw).
Qed.

(** The chunker yields no chunk exactly when the text is empty or made of
    whitespace only. *)
Theorem chunk_text_simple_nil_iff (text : str) (page_num chunk_size : Z) :
  chunk_text_simple text page_num chunk_size = [] <-> forallb isspace text = true.
Proof.
  rewrite <- paragraphs_nil_iff, chunk_text_simple_groups. split.
  - intros Hnil. apply map_eq_nil in Hnil.
    rewrite <- (group_paragraphs_concat chunk_size (paragraphs text)).
    destruct (group_paragraphs chunk_size (paragraphs text)); [reflexivity|discriminate].
  - intros ->. reflexivity.
Qed.

(** ** Chunks are closed only when needed *)

Lemma closes_late_short (chunk_size : Z) (l : list (list str)) :
  (length l <= 1)%nat -> closes_late chunk_size l.
Proof.
  intros Hlen pre g1 g2 post ->. rewrite length_app in Hlen. simpl in Hlen. lia.
Qed.

Lemma closes_late_snoc (chunk_size : Z) (l : list (list str)) (a : list str)
    (p : str) (r : list str) :
  closes_late chunk_size (l ++ [a]) ->
  chunk_size < len (join blank_line a) + len p ->
  closes_late chunk_size ((l ++ [a]) ++ [p :: r]).
Proof.
  intros Hl Hfit pre g1 g2 post Heq.
  destruct post as [|x post _] using rev_ind.
  - change (pre ++ [g1; g2]) with (pre ++ [g1] ++ [g2]) in Heq. rewrite app_assoc in Heq.
    apply app_inj_tail in Heq as [Heq <-]. apply app_inj_tail in Heq as [_ <-].
    now exists p, r.
  - change (pre ++ g1 :: g2 :: post ++ [x]) with (pre ++ (g1 :: g2 :: post) ++ [x]) in Heq.
    rewrite app_assoc in Heq. apply app_inj_tail in Heq as [Heq _].
    now apply (Hl pre g1 g2 post).
Qed.

Lemma closes_late_grow (chunk_size : Z) (l : list (list str)) (a x : list str) :
  closes_late chunk_size (l ++ [a]) -> closes_late chunk_size (l ++ [a ++ x]).
Proof.
  intros Hl pre g1 g2 post Heq.
  destruct post as [|y post _] using rev_ind.
  - change (pre ++ [g1; g2]) with (pre ++ [g1] ++ [g2]) in Heq. rewrite app_assoc in Heq.
    apply app_inj_tail in Heq as [-> <-].
    destruct (Hl pre g1 a []) as (p & rest & -> & Hfit);
      [now rewrite <- app_assoc|].
    now exists p, (rest ++ x).
  - change (pre ++ g1 :: g2 :: post ++ [y]) with (pre ++ (g1 :: g2 :: post) ++ [y]) in Heq.
    rewrite app_assoc in Heq. apply app_inj_tail in Heq as [-> _].
    apply (Hl pre g1 g2 (post ++ [a])). now rewrite <- app_assoc.
Qed.

Lemma group_step_closes_late (chunk_size : Z) (g : grouper) (p : str) :
  closes_late chunk_size (group_finish g) ->
  (current_group g = [] -> groups g = []) ->
  closes_late chunk_size (group_finish (group_step chunk_size g p))
  /\ current_group (group_step chunk_size g p) <> [].
Proof.
  intros Hl Hidle. unfold group_step, group_finish in *.
  destruct (current_group g) as [|q qs] eqn:Hcur.
  - rewrite andb_false_r. simpl. rewrite (Hidle eq_refl). split; [|discriminate].
    now apply closes_late_short.
  - rewrite andb_true_r. simpl nonempty in Hl. cbv iota in Hl.
    destruct (len (join blank_line (q :: qs)) + len p >? chunk_size) eqn:Hfit; simpl.
    + split; [|discriminate]. apply closes_late_snoc; [exact Hl|].
      rewrite Z.gtb_ltb in Hfit. now apply Z.ltb_lt in Hfit.
    + split; [|discriminate].
      change (q :: qs ++ [p]) with ((q :: qs) ++ [p]). now apply closes_late_grow.
Qed.

Lemma group_paragraphs_closes_late (chunk_size : Z) (ps : list str) :
  closes_late chunk_size (group_paragraphs chunk_size ps).
Proof.
  unfold group_paragraphs.
  assert (Hgen : forall g,
             closes_late chunk_size (group_finish g) ->
             (current_group g = [] -> groups g = []) ->
             closes_late chunk_size (group_finish (fold_left (group_step chunk_size) ps g))).
  { induction ps as [|p ps IH]; intros g Hl Hidle; simpl; [exact Hl|].
    destruct (group_step_closes_late chunk_size g p Hl Hidle) as [Hl' Hne].
    apply IH; [exact Hl'|]. intros Hnil. contradiction. }
  apply Hgen; [|reflexivity]. apply closes_late_short. simpl. lia.
Qed.

Lemma join_cons_prefix (sep p : str) (rest : list str) :
  exists tail, join sep (p :: rest) = p ++ tail.
Proof.
  destruct rest as [|q rest]; [exists []; simpl; now rewrite app_nil_r|].
  now exists (sep ++ join sep (q :: rest)).
Qed.

Lemma chunk_text_simple_texts (text : str) (page_num chunk_size : Z) :
  map Chunk.text (chunk_text_simple text page_num chunk_size)
  = map (join blank_line) (group_paragraphs chunk_size (paragraphs text)).
Proof.
  rewrite chunk_text_simple_groups, map_map.
  rewrite <- (map_snd_enumerate (group_paragraphs chunk_size (paragraphs text)) 0) at 2.
  now rewrite map_map.
Qed.

(** The chunker is greedy: whenever a chunk is followed by another, the
    chunk that follows starts with a paragraph of the text that, added to
    the chunk before it, would have passed the threshold. *)
Theorem chunk_text_simple_greedy (text : str) (page_num chunk_size : Z)
    (pre : list Chunk.t) (c1 c2 : Chunk.t) (post : list Chunk.t) :
  chunk_text_simple text page_num chunk_size = pre ++ c1 :: c2 :: post ->
  exists p rest,
    In p (paragraphs text)
    /\ Chunk.text c2 = p ++ rest
    /\ chunk_size < len (Chunk.text c1) + len p.
Proof.
  intros Heq. apply (f_equal (map Chunk.text)) in Heq.
  rewrite chunk_text_simple_texts, map_app in Heq. simpl map in Heq.
  pose proof (group_paragraphs_closes_late chunk_size (paragraphs text)) as Hlate.
  pose proof (group_paragraphs_incl chunk_size (paragraphs text)) as Hincl.
  revert Heq Hlate Hincl. generalize (group_paragraphs chunk_size (paragraphs text)).
  intros G Heq Hlate Hincl.
  apply map_eq_app in Heq as (G1 & G2 & -> & _ & Heq).
  destruct G2 as [|g1 [|g2 G2]]; try discriminate.
  injection Heq as H1 H2 _.
  destruct (Hlate G1 g1 g2 G2 eq_refl) as (p & rest & -> & Hfit).
  destruct (join_cons_prefix blank_line p rest) as [tail Htail].
  exists p, tail. split; [|split].
  - apply (Hincl (p :: rest)); [|now left].
    apply in_or_app. right. right. now left.
  - now rewrite <- H2.
  - now rewrite <- H1.
Qed.

Lemma chunk_text_simple_greedy_witness :
  chunk_text_simple (lit "aaa" ++ blank_line ++ lit "bb" ++ blank_line ++ lit "cccc") 1 5
  = [] ++ make_chunk 1 0 (lit "aaa" ++ blank_line ++ lit "bb")
       :: make_chunk 1 1 (lit "cccc") :: []
  /\ exists p rest,
       In p (paragraphs (lit "aaa" ++ blank_line ++ lit "bb" ++ blank_line ++ lit "cccc"))
       /\ Chunk.text (make_chunk 1 1 (lit "cccc")) = p ++ rest
       /\ 5 < len (Chunk.text (make_chunk 1 0 (lit "aaa" ++ blank_line ++ lit "bb"))) + len p.
Proof.
  assert (Heq : chunk_text_simple
                  (lit "aaa" ++ blank_line ++ lit "bb" ++ blank_line ++ lit "cccc") 1 5
                = [] ++ make_chunk 1 0 (lit "aaa" ++ blank_line ++ lit "bb")
                     :: make_chunk 1 1 (lit "cccc") :: [])
    by (vm_compute; reflexivity).
  split; [exact Heq|].
  exact (chunk_text_simple_greedy _ 1 5 [] _ _ [] Heq).
Defined.

(** ** Oversized paragraphs *)

Lemma total_len_in (grp : list str) (p : str) : In p grp -> len p <= total_len grp.
Proof.
  induction grp as [|q grp IH]; intros Hin; [contradiction|]. simpl.
  destruct Hin as [->|Hin].
  - assert (H : 0 <= total_len grp)
      by (clear; induction grp as [|x l IHl]; simpl; [lia|pose proof (len_nonneg x); lia]).
    lia.
  - pose proof (len_nonneg q). specialize (IH Hin). lia.
Qed.

Lemma enumerate_in {A : Type} (l : list A) (a : A) (start : nat) :
  In a l -> exists i, In (i, a) (enumerate start l).
Proof.
  revert start. induction l as [|b l IH]; intros start Hin; [contradiction|].
  destruct Hin as [->|Hin].
  - exists start. now left.
  - destruct (IH (S start) Hin) as [i Hi]. exists i. now right.
Qed.

(** A paragraph longer than the threshold is never merged with its
    neighbours nor split: it is the whole text of one of the chunks. *)
Theorem chunk_text_simple_oversized_alone (text : str) (page_num chunk_size : Z) (p : str) :
  In p (paragraphs text) -> chunk_size < len p ->
  exists c, In c (chunk_text_simple text page_num chunk_size) /\ Chunk.text c = p.
Proof.
  intros Hp Hlong.
  rewrite <- (group_paragraphs_concat chunk_size (paragraphs text)) in Hp.
  apply in_concat in Hp as (grp & Hgrp & Hin).
  destruct (enumerate_in _ grp 0 Hgrp) as [i Hi].
  exists (chunk_of_group page_num (i, grp)). split.
  - rewrite chunk_text_simple_groups. now apply in_map.
  - pose proof (proj1 (Forall_forall _ _)
                  (group_paragraphs_ok chunk_size (paragraphs text)) grp Hgrp) as [_ Hw].
    destruct Hw as [[q ->]|Hsum].
    + destruct Hin as [->|[]]. reflexivity.
    + pose proof (total_len_in grp p Hin). lia.
Qed.

Lemma chunk_text_simple_oversized_alone_witness :
  In (lit "bbbbbb") (paragraphs (lit "aa" ++ blank_line ++ lit "bbbbbb" ++ blank_line ++ lit "c"))
  /\ 5 < len (lit "bbbbbb")
  /\ exists c,
       In c (chunk_text_simple
               (lit "aa" ++ blank_line ++ lit "bbbbbb" ++ blank_line ++ lit "c") 3 5)
       /\ Chunk.text c = lit "bbbbbb".
Proof.
  assert (Hin : In (lit "bbbbbb")
                  (paragraphs (lit "aa" ++ blank_line ++ lit "bbbbbb" ++ blank_line ++ lit "c")))
    by (vm_compute; auto).
  assert (Hlong : 5 < len (lit "bbbbbb")) by (vm_compute; reflexivity).
  split; [exact Hin|]. split; [exact Hlong|].
  exact (chunk_text_simple_oversized_alone _ 3 5 _ Hin Hlong).
Defined.

(** * Further properties of the indexer *)

(** ** Page extraction *)

Lemma extract_pages_from_spec (pages : list str) :
  forall start,
    StronglySorted Z.lt (map fst (extract_pages_from start pages))
    /\ Forall (fun p =>
                 start < fst p <= start + Z.of_nat (length pages)
                 /\ exists raw,
                      nth_error pages (Z.to_nat (fst p - start - 1)) = Some raw
                      /\ snd p = strip raw /\ strip raw <> [])
         (extract_pages_from start pages)
    /\ (forall i raw,
          nth_error pages i = Some raw -> strip raw <> [] ->
          In (start + Z.of_nat i + 1, strip raw) (extract_pages_from start pages)).
Proof.
  induction pages as [|page_text rest IH]; intros start.
  - simpl. split; [constructor|]. split; [constructor|]. intros [|i] raw; discriminate.
  - destruct (IH (start + 1)) as (Hsorted & Hall & Hcomplete).
    assert (Hlater : Forall (fun p =>
                start < fst p <= start + Z.of_nat (length (page_text :: rest))
                /\ exists raw,
                     nth_error (page_text :: rest) (Z.to_nat (fst p - start - 1)) = Some raw
                     /\ snd p = strip raw /\ strip raw <> [])
              (extract_pages_from (start + 1) rest)).
    { eapply Forall_impl; [|exact Hall]. intros [n t] (Hrange & raw & Hnth & Ht & Hne).
      simpl fst in *. simpl snd in *. split; [simpl length; lia|].
      exists raw. split; [|now split].
      replace (Z.to_nat (n - start - 1)) with (S (Z.to_nat (n - (start + 1) - 1))) by lia.
      exact Hnth. }
    simpl extract_pages_from.
    destruct (truthy page_text && truthy (strip page_text)) eqn:Hy.
    + apply andb_true_iff in Hy as [_ Hs]. apply truthy_true in Hs.
      simpl app. simpl map. split; [|split].
      * constructor; [exact Hsorted|].
        apply Forall_map. eapply Forall_impl; [|exact Hall].
        intros [n t] [Hrange _]. simpl in *. lia.
      * constructor; [|exact Hlater]. simpl fst. simpl snd.
        split; [simpl length; lia|]. exists page_text.
        replace (start + 1 - start - 1) with 0 by lia. now split.
      * intros [|i] raw Hnth Hne.
        -- injection Hnth as <-. left. f_equal. lia.
        -- right. replace (start + Z.of_nat (S i) + 1) with (start + 1 + Z.of_nat i + 1) by lia.
           now apply Hcomplete.
    + simpl app. split; [exact Hsorted|]. split; [exact Hlater|].
      intros [|i] raw Hnth Hne.
      * injection Hnth as <-. exfalso.
        apply andb_false_iff in Hy as [Hy|Hy]; apply truthy_false in Hy.
        -- subst page_text. now apply Hne.
        -- contradiction.
      * replace (start + Z.of_nat (S i) + 1) with (start + 1 + Z.of_nat i + 1) by lia.
        now apply Hcomplete.
Qed.

(** [extract_pages_generator] yields the pages that hold some
    non-whitespace text, and only those, under their 1-based page numbers
    in increasing order, each with its text stripped. *)
Theorem extract_pages_generator_pages (pdf : list str) :
  StronglySorted Z.lt (map fst (extract_pages_generator pdf))
  /\ Forall (fun p =>
               1 <= fst p <= Z.of_nat (length pdf)
               /\ exists raw,
                    nth_error pdf (Z.to_nat (fst p - 1)) = Some raw
                    /\ snd p = strip raw /\ strip raw <> [])
       (extract_pages_generator pdf)
  /\ (forall i raw,
        nth_error pdf i = Some raw -> strip raw <> [] ->
        In (Z.of_nat i + 1, strip raw) (extract_pages_generator pdf)).
Proof.
  destruct (extract_pages_from_spec pdf 0) as (Hsorted & Hall & Hcomplete).
  split; [exact Hsorted|]. split.
  - eapply Forall_impl; [|exact Hall]. intros [n t] (Hrange & raw & Hnth & Hrest).
    simpl fst in *. split; [lia|]. exists raw. split; [|exact Hrest].
    now replace (n - 1) with (n - 0 - 1) by lia.
  - intros i raw Hnth Hne. now apply (Hcomplete i raw).
Qed.

(** ** Ids across a corpus *)

Lemma string_of_uint_digits (d : Decimal.uint) :
  Forall (fun c => (48 <= c <= 57)%N) (lit (NilEmpty.string_of_uint d)).
Proof.
  induction d; simpl; constructor; try exact IHd; cbv; split; discriminate.
Qed.

Lemma str_of_Z_no_underscore (z : Z) : ~ In 95%N (str_of_Z z).
Proof.
  unfold str_of_Z. intros Hin.
  assert (Hd : forall d, ~ In 95%N (lit (NilEmpty.string_of_uint d))).
  { intros d H. apply (proj1 (Forall_forall _ _) (string_of_uint_digits d)) in H. lia. }
  destruct (Z.to_int z) as [d|d]; simpl in Hin.
  - now apply (Hd d).
  - destruct Hin as [Hin|Hin]; [discriminate|]. now apply (Hd d).
Qed.

Lemma str_of_Z_inj (a b : Z) : str_of_Z a = str_of_Z b -> a = b.
Proof.
  unfold str_of_Z. intros H. apply lit_inj in H.
  apply DecimalZ.to_int_inj.
  pose proof (NilEmpty.isi (Z.to_int a)) as Ha. pose proof (NilEmpty.isi (Z.to_int b)) as Hb.
  rewrite H in Ha. rewrite Ha in Hb. now injection Hb.
Qed.

Lemma app_cons_first {A : Type} (x : A) (a a' r r' : list A) :
  ~ In x a -> ~ In x a' -> a ++ x :: r = a' ++ x :: r' -> a = a' /\ r = r'.
Proof.
  revert a'. induction a as [|y a IH]; intros [|y' a'] Ha Ha' Heq; simpl in *.
  - injection Heq as ->. now split.
  - injection Heq as <- _. exfalso. apply Ha'. now left.
  - injection Heq as -> _. exfalso. apply Ha. now left.
  - injection Heq as -> Heq.
    destruct (IH a') as [-> ->]; [tauto|tauto|exact Heq|]. now split.
Qed.

(** An id names its page and its ordinal. *)
Lemma chunk_id_of_inj_pair (p q : Z) (i j : nat) :
  chunk_id_of p i = chunk_id_of q j -> p = q /\ i = j.
Proof.
  unfold chunk_id_of. intros H. apply app_inv_head in H.
  change (lit "_chunk") with (95%N :: lit "chunk") in H. simpl app in H.
  apply app_cons_first in H as [Hp Hi]; try apply str_of_Z_no_underscore.
  injection Hi as Hi. split; [now apply str_of_Z_inj|now apply str_of_nat_inj].
Qed.

Lemma chunk_text_simple_id_seq (text : str) (page_num chunk_size : Z) :
  map Chunk.id (chunk_text_simple text page_num chunk_size)
  = map (chunk_id_of page_num)
      (seq 0 (length (chunk_text_simple text page_num chunk_size))).
Proof.
  rewrite chunk_text_simple_groups, length_map, enumerate_length, map_map.
  rewrite <- (map_fst_enumerate (group_paragraphs chunk_size (paragraphs text)) 0).
  now rewrite map_map.
Qed.

Lemma corpus_chunk_ids (pages : list (Z * str)) :
  map Chunk.id
    (flat_map (fun p => chunk_text_simple (snd p) (fst p) default_chunk_size) pages)
  = map (fun k => chunk_id_of (fst k) (snd k))
      (flat_map (fun p =>
                   map (pair (fst p))
                     (seq 0 (length (chunk_text_simple (snd p) (fst p) default_chunk_size))))
         pages).
Proof.
  induction pages as [|p pages IH]; [reflexivity|].
  simpl. rewrite !map_app, IH. f_equal.
  rewrite chunk_text_simple_id_seq.
  now rewrite map_map.
Qed.

Lemma page_keys_NoDup (pages : list (Z * str)) (count : Z * str -> nat) :
  StronglySorted Z.lt (map fst pages) ->
  NoDup (flat_map (fun p => map (pair (fst p)) (seq 0 (count p))) pages).
Proof.
  induction pages as [|p pages IH]; intros Hsorted; simpl; [constructor|].
  inversion Hsorted as [|? ? Hrest Hlt]; subst.
  apply NoDup_app.
  - apply NoDup_map_inj; [|apply seq_NoDup]. intros x y H. now injection H.
  - now apply IH.
  - intros [n i] Hin Hlater. apply in_map_iff in Hin as [i' [Heq _]].
    injection Heq as <- _.
    apply in_flat_map in Hlater as [q [Hq Hin]].
    apply in_map_iff in Hin as [j [Heq _]]. injection Heq as Hpage _.
    assert (Hgt : fst p < fst q).
    { apply (proj1 (Forall_forall _ _) Hlt). now apply in_map. }
    lia.
Qed.

(** The ids of all the chunks of a source are pairwise distinct: the store
    is never handed the same id twice in an indexing run. *)
Theorem corpus_chunks_ids_distinct (pdf : list str) :
  NoDup (map Chunk.id (corpus_chunks pdf)).
Proof.
  unfold corpus_chunks. rewrite corpus_chunk_ids.
  apply NoDup_map_inj.
  - intros [p i] [q j] H. simpl in H. apply chunk_id_of_inj_pair in H as [-> ->]. reflexivity.
  - apply page_keys_NoDup. apply (extract_pages_from_spec pdf 0).
Qed.

(** ** What an indexing run persists *)

Section IndexingFlow.
Context {E : Embedding}.

Lemma zip_stored_chunks (chunks : list Chunk.t) :
  zip_stored (map Chunk.id chunks) (encode (map Chunk.text chunks))
    (map Chunk.text chunks) (map (fun chunk => mkMetadata (Chunk.page chunk)) chunks)
  = map stored_of_chunk chunks.
Proof. induction chunks as [|k ks IH]; simpl; [reflexivity|]. now f_equal. Qed.

Lemma store_batch_content (c : collection) (chunks : list Chunk.t) :
  store_batch c chunks
  = (length chunks,
     c ++ map stored_of_chunk chunks,
     match chunks with
     | [] => []
     | _ :: _ => [EncodeCall (map Chunk.text chunks); AddCall (map Chunk.id chunks)]
     end).
Proof.
  destruct chunks as [|k ks]; [simpl; now rewrite app_nil_r|].
  unfold store_batch, collection_add. now rewrite zip_stored_chunks.
Qed.

Lemma batch_calls_nonempty (chunks : list Chunk.t) :
  chunks <> [] ->
  match chunks with
  | [] => []
  | _ :: _ => [EncodeCall (map Chunk.text chunks); AddCall (map Chunk.id chunks)]
  end
  = [EncodeCall (map Chunk.text chunks); AddCall (map Chunk.id chunks)].
Proof. destruct chunks; [congruence|reflexivity]. Qed.

Lemma add_batches_app (a b : list call) :
  add_batches (a ++ b) = add_batches a ++ add_batches b.
Proof. apply flat_map_app. Qed.

Lemma encode_batches_app (a b : list call) :
  encode_batches (a ++ b) = encode_batches a ++ encode_batches b.
Proof. apply flat_map_app. Qed.

Lemma chunked_pages_app (a b : list call) :
  chunked_pages (a ++ b) = chunked_pages a ++ chunked_pages b.
Proof. apply flat_map_app. Qed.

Lemma index_page_flow (c0 : collection) (seen : list Chunk.t) (pages : list (Z * str))
    (st : indexer) (p : Z * str) :
  flow_inv c0 seen pages st ->
  flow_inv c0 (seen ++ chunk_text_simple (snd p) (fst p) default_chunk_size)
    (pages ++ [p]) (index_page st p).
Proof.
  intros [Hcontent Hids Htexts Hpages Htotal Hsizes Haligned].
  destruct p as [page_num page_text]. cbn [fst snd]. unfold index_page.
  set (page_chunks := chunk_text_simple page_text page_num default_chunk_size).
  destruct (BATCH_SIZE <=? length (all_chunks st ++ page_chunks))%nat eqn:Hfull.
  - apply Nat.leb_le in Hfull. rewrite store_batch_content.
    assert (Hne : all_chunks st ++ page_chunks <> []).
    { intros Hnil. rewrite Hnil in Hfull. unfold BATCH_SIZE in Hfull. simpl in Hfull. lia. }
    rewrite (batch_calls_nonempty _ Hne).
    constructor; cbn [all_chunks total_indexed ix_collection ix_calls];
      rewrite ?add_batches_app, ?encode_batches_app, ?chunked_pages_app;
      cbn [add_batches encode_batches chunked_pages flat_map app map length];
      rewrite ?app_nil_r, ?concat_app; cbn [concat]; rewrite ?app_nil_r.
    + rewrite !map_app, app_assoc, Hcontent. now rewrite <- app_assoc.
    + rewrite !map_app, app_assoc, Hids. reflexivity.
    + rewrite !map_app, app_assoc, Htexts. reflexivity.
    + now rewrite Hpages.
    + rewrite !length_app in *. lia.
    + apply Forall_app. split; [exact Hsizes|]. constructor; [|constructor].
      now rewrite length_map.
    + rewrite !map_app, Haligned. apply (f_equal (app _)).
      cbn [map]. now rewrite !length_app, !length_map.
  - constructor; cbn [all_chunks total_indexed ix_collection ix_calls];
      rewrite ?add_batches_app, ?encode_batches_app, ?chunked_pages_app;
      cbn [add_batches encode_batches chunked_pages flat_map app];
      rewrite ?app_nil_r.
    + rewrite !map_app, app_assoc, Hcontent. now rewrite <- app_assoc.
    + rewrite !map_app, app_assoc, Hids. reflexivity.
    + rewrite !map_app, app_assoc, Htexts. reflexivity.
    + now rewrite Hpages.
    + rewrite !length_app. lia.
    + exact Hsizes.
    + exact Haligned.
Qed.

Lemma index_loop_flow (c0 : collection) (todo : list (Z * str)) :
  forall seen pages st,
    flow_inv c0 seen pages st ->
    flow_inv c0
      (seen ++ flat_map (fun p => chunk_text_simple (snd p) (fst p) default_chunk_size) todo)
      (pages ++ todo) (fold_left index_page todo st).
Proof.
  induction todo as [|p todo IH]; intros seen pages st Hinv; simpl.
  - now rewrite !app_nil_r.
  - rewrite app_assoc. replace (pages ++ p :: todo) with ((pages ++ [p]) ++ todo)
      by (now rewrite <- app_assoc).
    apply IH. now apply index_page_flow.
Qed.

(** The outcome of an indexing run that passes the guard. *)
Lemma index_run_flow (pdf : list str) :
  let '(n, c, calls) := process_and_store_pdf [] pdf in
  n = length (corpus_chunks pdf)
  /\ c = map stored_of_chunk (corpus_chunks pdf)
  /\ concat (add_batches calls) = map Chunk.id (corpus_chunks pdf)
  /\ concat (encode_batches calls) = map Chunk.text (corpus_chunks pdf)
  /\ chunked_pages calls = extract_pages_generator pdf
  /\ Forall (fun b => (BATCH_SIZE <= length b)%nat) (removelast (add_batches calls))
  /\ map (@length str) (encode_batches calls) = map (@length str) (add_batches calls).
Proof.
  unfold process_and_store_pdf. simpl collection_count. cbv iota.
  set (st0 := {| all_chunks := []; total_indexed := 0; ix_collection := []; ix_calls := [] |}).
  assert (Hinv0 : flow_inv [] [] [] st0) by (constructor; simpl; auto).
  pose proof (index_loop_flow [] (extract_pages_generator pdf) [] [] st0 Hinv0) as Hinv.
  simpl app in Hinv. fold (corpus_chunks pdf) in Hinv.
  destruct Hinv as [Hcontent Hids Htexts Hpages Htotal Hsizes Haligned].
  set (st := fold_left index_page (extract_pages_generator pdf) st0) in *.
  unfold index_finish. destruct (all_chunks st) as [|k ks] eqn:Hall.
  - simpl in *. rewrite !app_nil_r in *.
    repeat (split; [first [assumption | lia]|]).
    split; [|assumption].
    revert Hsizes. generalize (add_batches (ix_calls st)). intros l Hl.
    induction Hl as [|b l Hb Hl IH]; [constructor|].
    destruct l; [constructor|]. simpl. constructor; assumption.
  - rewrite store_batch_content.
    split; [simpl length in *; lia|]. split; [exact Hcontent|].
    rewrite add_batches_app, encode_batches_app, chunked_pages_app.
    cbn [add_batches encode_batches chunked_pages flat_map app].
    rewrite !concat_app. cbn [concat]. rewrite !app_nil_r.
    split; [exact Hids|]. split; [exact Htexts|].
    split; [exact Hpages|]. split.
    + now rewrite removelast_last.
    + rewrite !map_app, Haligned. apply (f_equal (app _)).
      simpl. now rewrite !length_map.
Qed.

(** Batching is transparent. On an empty store, [process_and_store_pdf]
    returns the number of chunks the source yields and leaves in the store
    exactly one tuple per chunk, in page and chunk order: the chunk's id,
    the embedding of its text, its text, and its page as metadata. *)
Theorem process_and_store_pdf_persists (pdf : list str) :
  fst (process_and_store_pdf [] pdf)
  = (length (corpus_chunks pdf), map stored_of_chunk (corpus_chunks pdf)).
Proof.
  pose proof (index_run_flow pdf) as H.
  destruct (process_and_store_pdf [] pdf) as [[n c] calls].
  destruct H as (-> & -> & _). reflexivity.
Qed.

(** Along an indexing run on an empty store, the chunker is called once
    per page with text, in page order, and every chunk's text is embedded
    once and its id written once, in order; each write follows one
    embedding call on as many texts as ids are written. *)
Theorem process_and_store_pdf_calls (pdf : list str) :
  let calls := snd (process_and_store_pdf [] pdf) in
  chunked_pages calls = extract_pages_generator pdf
  /\ concat (encode_batches calls) = map Chunk.text (corpus_chunks pdf)
  /\ concat (add_batches calls) = map Chunk.id (corpus_chunks pdf)
  /\ map (@length str) (encode_batches calls) = map (@length str) (add_batches calls).
Proof.
  pose proof (index_run_flow pdf) as H.
  destruct (process_and_store_pdf [] pdf) as [[n c] calls].
  destruct H as (_ & _ & Hids & Htexts & Hpages & _ & Haligned). simpl. auto.
Qed.

Lemma concat_length_removelast {A : Type} (n : nat) (l : list (list A)) :
  Forall (fun b => (n <= length b)%nat) (removelast l) ->
  (n * (length l - 1) <= length (concat l))%nat.
Proof.
  induction l as [|b l IH]; intros Hall; [simpl; lia|].
  destruct l as [|b' l]; [simpl; lia|].
  change (removelast (b :: b' :: l)) with (b :: removelast (b' :: l)) in Hall.
  inversion Hall as [|? ? Hb Hrest]; subst. specialize (IH Hrest).
  change (concat (b :: b' :: l)) with (b ++ concat (b' :: l)).
  rewrite length_app. simpl length in *. lia.
Qed.

(** Every batch written to the store before the last one of a run holds at
    least [BATCH_SIZE] chunks, so a source of n chunks is written in at
    most n / 50 + 1 calls to the store. *)
Theorem process_and_store_pdf_full_batches (pdf : list str) :
  let batches := add_batches (snd (process_and_store_pdf [] pdf)) in
  Forall (fun b => (BATCH_SIZE <= length b)%nat) (removelast batches)
  /\ (BATCH_SIZE * (length batches - 1) <= length (corpus_chunks pdf))%nat.
Proof.
  cbv zeta. pose proof (index_run_flow pdf) as H.
  destruct (process_and_store_pdf [] pdf) as [[n c] calls].
  destruct H as (_ & _ & Hids & _ & _ & Hsizes & _). cbn [snd].
  split; [exact Hsizes|].
  rewrite <- (length_map Chunk.id (corpus_chunks pdf)), <- Hids.
  now apply concat_length_removelast.
Qed.

End IndexingFlow.

(** * Further properties of the retriever *)

Lemma map_outcome_ok_map {A B C : Type} (f : A -> outcome B) (g : B -> C) (h : A -> C)
    (l : list A) (bs : list B) :
  (forall a b, f a = Ok b -> g b = h a) ->
  map_outcome f l = Ok bs -> map g bs = map h l.
Proof.
  intros Hfg. revert bs. induction l as [|a l IH]; intros bs Hok; simpl in Hok.
  - injection Hok as <-. reflexivity.
  - destruct (f a) as [b|e] eqn:Hfa; [|discriminate]. simpl in Hok.
    destruct (map_outcome f l) as [bs'|e]; [|discriminate]. simpl in Hok.
    injection Hok as <-. simpl. rewrite (Hfg a b Hfa), (IH bs' eq_refl). reflexivity.
Qed.

(** Whatever the store answers, when [search]'s formatting loop does not
    raise, the texts of its entries are the documents of the first inner
    list of the answer, in the same order; a missing, empty or
    empty-headed documents list gives no entry. *)
Theorem format_results_texts (results : query_result) (rs : list search_result) :
  format_results results = Ok rs ->
  map sr_text rs
  = match documents results with
    | Some (docs :: _) => docs
    | _ => []
    end.
Proof.
  unfold format_results. intros Hok.
  destruct (documents results) as [[|[|doc docs] rest]|];
    try (injection Hok as <-; reflexivity).
  apply (map_outcome_ok_map _ sr_text snd) in Hok.
  - rewrite Hok. apply (map_snd_enumerate (doc :: docs) 0).
  - intros [i d] b Hb. simpl.
    destruct (field_at (distances results) i); [|discriminate].
    destruct (field_at (metadatas results) i); [|discriminate].
    simpl in Hb. injection Hb as <-. reflexivity.
Qed.

Lemma format_results_texts_witness :
  format_results
    {| documents := Some [[lit "GKE"; lit "Cloud Run"]];
       distances := Some [[inject_Z 1; inject_Z 5]];
       metadatas := None |}
  = Ok [ {| sr_text := lit "GKE"; sr_distance := Some (inject_Z 1); sr_metadata := None |};
         {| sr_text := lit "Cloud Run"; sr_distance := Some (inject_Z 5);
            sr_metadata := None |} ]
  /\ map sr_text
       [ {| sr_text := lit "GKE"; sr_distance := Some (inject_Z 1); sr_metadata := None |};
         {| sr_text := lit "Cloud Run"; sr_distance := Some (inject_Z 5);
            sr_metadata := None |} ]
     = [lit "GKE"; lit "Cloud Run"].
Proof.
  assert (H : format_results
                {| documents := Some [[lit "GKE"; lit "Cloud Run"]];
                   distances := Some [[inject_Z 1; inject_Z 5]];
                   metadatas := None |}
              = Ok [ {| sr_text := lit "GKE"; sr_distance := Some (inject_Z 1);
                        sr_metadata := None |};
                     {| sr_text := lit "Cloud Run"; sr_distance := Some (inject_Z 5);
                        sr_metadata := None |} ]) by reflexivity.
  split; [exact H|].
  exact (format_results_texts _ _ H).
Defined.

Lemma format_loop_absent (ds : option (list (list Q))) (ms : option (list (list metadata)))
    (docs : list str) (start : nat) :
  ds = None \/ ds = Some [] -> ms = None \/ ms = Some [] ->
  map_outcome
    (fun '(i, doc) =>
       d <- field_at ds i ;;
       m <- field_at ms i ;;
       Ok {| sr_text := doc; sr_distance := d; sr_metadata := m |})
    (enumerate start docs)
  = Ok (map (fun doc => {| sr_text := doc; sr_distance := None; sr_metadata := None |}) docs).
Proof.
  intros Hds Hms. revert start. induction docs as [|doc docs IH]; intros start; [reflexivity|].
  cbn [enumerate map_outcome map]. rewrite IH.
  destruct Hds as [-> | ->], Hms as [-> | ->]; reflexivity.
Qed.

(** When the store's answer carries no distances and no metadata (the
    fields are missing or empty), [search]'s formatting loop does not
    raise: every document still gives an entry, with [None] in both
    places. *)
Theorem format_results_absent_fields (docs : list str) (rest : list (list str))
    (ds : option (list (list Q))) (ms : option (list (list metadata))) :
  ds = None \/ ds = Some [] -> ms = None \/ ms = Some [] ->
  format_results {| documents := Some (docs :: rest); distances := ds; metadatas := ms |}
  = Ok (map (fun doc => {| sr_text := doc; sr_distance := None; sr_metadata := None |}) docs).
Proof.
  intros Hds Hms. unfold format_results. cbn [documents distances metadatas].
  destruct docs as [|doc docs]; [reflexivity|].
  now apply format_loop_absent.
Qed.

Lemma format_results_absent_fields_witness :
  format_results
    {| documents := Some [[lit "GKE"; lit "Cloud Run"]]; distances := None;
       metadatas := Some [] |}
  = Ok [ {| sr_text := lit "GKE"; sr_distance := None; sr_metadata := None |};
         {| sr_text := lit "Cloud Run"; sr_distance := None; sr_metadata := None |} ].
Proof.
  exact (format_results_absent_fields [lit "GKE"; lit "Cloud Run"] [] None (Some [])
           (or_introl eq_refl) (or_intror eq_refl)).
Defined.

Lemma field_at_outcome {A : Type} (field : option (list (list A))) (i : nat) :
  (exists a, field_at field i = Ok a) \/ field_at field i = Raised IndexError.
Proof.
  unfold field_at. destruct field as [[|first rest]|]; eauto.
  destruct (nth_error first i); eauto.
Qed.

Lemma map_outcome_raises {A B : Type} (f : A -> outcome B) (e : exn) (l : list A) :
  (forall a, In a l -> (exists b, f a = Ok b) \/ f a = Raised e) ->
  (exists a, In a l /\ f a = Raised e) ->
  map_outcome f l = Raised e.
Proof.
  induction l as [|a l IH]; intros Hall [x [Hin Hx]]; [contradiction|].
  simpl. destruct (Hall a (or_introl eq_refl)) as [[b Hb]|Hb]; rewrite Hb; [|reflexivity].
  simpl. destruct Hin as [->|Hin]; [congruence|].
  rewrite IH; [reflexivity| |now exists x].
  intros y Hy. apply Hall. now right.
Qed.

Lemma enumerate_nth {A : Type} (l : list A) (i start : nat) (a : A) :
  nth_error l i = Some a -> In ((start + i)%nat, a) (enumerate start l).
Proof.
  revert i start. induction l as [|b l IH]; intros [|i] start Hnth; try discriminate.
  - injection Hnth as ->. left. f_equal. lia.
  - right. replace (start + S i)%nat with (S start + i)%nat by lia. now apply IH.
Qed.

(** The defensive mapping covers absent fields only. When the store's
    answer has a distances list shorter than its documents list,
    [search]'s formatting loop raises [IndexError]. *)
Theorem format_results_short_distances (docs : list str) (rest : list (list str))
    (ds : list Q) (rest' : list (list Q)) (ms : option (list (list metadata))) :
  (length ds < length docs)%nat ->
  format_results
    {| documents := Some (docs :: rest); distances := Some (ds :: rest'); metadatas := ms |}
  = Raised IndexError.
Proof.
  intros Hshort. unfold format_results. cbn [documents distances metadatas].
  destruct docs as [|doc docs]; [simpl in Hshort; lia|].
  apply map_outcome_raises.
  - intros [i d] _.
    destruct (field_at_outcome (Some (ds :: rest')) i) as [[a ->] | ->]; [|now right].
    destruct (field_at_outcome ms i) as [[b ->] | ->]; [|now right].
    left. simpl. eauto.
  - destruct (nth_error (doc :: docs) (length ds)) as [d|] eqn:Hnth.
    + exists (length ds, d). split.
      * apply (enumerate_nth (doc :: docs) (length ds) 0 d Hnth).
      * unfold field_at at 1.
        now rewrite (proj2 (nth_error_None ds (length ds)) (Nat.le_refl _)).
    + apply nth_error_None in Hnth. lia.
Qed.

Lemma format_results_short_distances_witness :
  (length [inject_Z 1] < length [lit "GKE"; lit "Cloud Run"])%nat
  /\ format_results
       {| documents := Some [[lit "GKE"; lit "Cloud Run"]];
          distances := Some [[inject_Z 1]]; metadatas := None |}
     = Raised IndexError.
Proof.
  assert (H : (length [inject_Z 1] < length [lit "GKE"; lit "Cloud Run"])%nat)
    by (simpl; lia).
  split; [exact H|].
  exact (format_results_short_distances [lit "GKE"; lit "Cloud Run"] [] [inject_Z 1] [] None H).
Defined.

(** * Further properties of the answer orchestrator *)

Lemma last_n_paired (k : nat) (history : list message) :
  paired history ->
  exists exchanges,
    last_n (2 * k) history = flat_map (fun qa => exchange (fst qa) (snd qa)) exchanges
    /\ (length exchanges <= k)%nat.
Proof.
  intros [exchanges ->].
  exists (skipn (length exchanges - k) exchanges). split.
  - rewrite <- skipn_exchanges. unfold last_n. f_equal. rewrite exchanges_length. lia.
  - rewrite length_skipn. lia.
Qed.

Lemma alternates_exchanges_then_user (exchanges : list (str * str)) (m : str) :
  alternates user
    (flat_map (fun qa => exchange (fst qa) (snd qa)) exchanges ++ [mkMessage user m]) = true.
Proof. induction exchanges as [|qa l IH]; [reflexivity|]. simpl. exact IH. Qed.

Lemma build_messages_well_formed (chain : RAGChain) (include_history : bool)
    (context question : str) :
  paired (conversation_history chain) ->
  well_formed_messages (build_messages chain include_history context question) = true.
Proof.
  intros Hpaired. unfold build_messages.
  assert (Hshape : exists exchanges,
             (if include_history && negb (length (conversation_history chain) =? 0)%nat
              then last_n 6 (conversation_history chain) else [])
             = flat_map (fun qa => exchange (fst qa) (snd qa)) exchanges
             /\ (length exchanges <= 3)%nat).
  { destruct (include_history && negb (length (conversation_history chain) =? 0)%nat).
    - apply (last_n_paired 3 _ Hpaired).
    - exists []. split; [reflexivity|simpl; lia]. }
  destruct Hshape as (exchanges & -> & Hlen).
  unfold well_formed_messages.
  rewrite alternates_exchanges_then_user, length_app, exchanges_length. simpl length.
  apply andb_true_iff. split.
  - simpl. apply Nat.odd_spec. exists (length exchanges). lia.
  - apply Nat.leb_le. lia.
Qed.

Lemma source_text_bound (text : str) : len (firstn 200 text ++ lit "...") <= 203.
Proof.
  rewrite len_app. unfold len. rewrite length_firstn.
  change (length (lit "...")) with 3%nat. lia.
Qed.

Section OrchestratorFacts.
Context {E : Embedding}.
Variable settings : Settings.

(** On any session, however many questions came before, [query] hands the
    completion capability a well-formed conversation only: a capability
    that refuses every other message sequence serves the session exactly
    as the unrestricted one does. *)
Theorem query_messages_well_formed (c : collection) (calls : list query_call)
    (llm : completion) (question : str) (include_history : bool) (max_chunks : option Z) :
  query settings (strict llm) c (run_queries settings c calls) question include_history
    max_chunks
  = query settings llm c (run_queries settings c calls) question include_history max_chunks.
Proof.
  assert (Hpaired : paired (conversation_history (run_queries settings c calls))).
  { apply (run_queries_invariant settings paired).
    - now exists [].
    - intros history q a. apply update_history_paired. }
  unfold query.
  destruct (search settings c question _) as [relevant|e]; [|reflexivity].
  unfold strict at 1. now rewrite build_messages_well_formed.
Qed.

(** What a successful [query] reports: [context_used] is the number of
    chunks [search] returned for the question, there is one source per
    chunk in the same order, carrying the chunk's distance and the first
    200 characters of its text followed by three dots, so no source text
    is longer than 203 characters. *)
Theorem query_sources (llm : completion) (c : collection) (chain chain' : RAGChain)
    (question : str) (include_history : bool) (max_chunks : option Z) (r : response) :
  query settings llm c chain question include_history max_chunks = (Ok r, chain') ->
  exists relevant,
    search settings c question (Some (or_default max_chunks (max_context_chunks settings)))
    = Ok relevant
    /\ context_used r = length relevant
    /\ length (sources r) = context_used r
    /\ map relevance (sources r) = map sr_distance relevant
    /\ map src_text (sources r)
       = map (fun chunk => firstn 200 (sr_text chunk) ++ lit "...") relevant
    /\ Forall (fun s => len (src_text s) <= 203) (sources r).
Proof.
  unfold query. intros Hq.
  destruct (search settings c question _) as [relevant|e]; [|discriminate].
  destruct (llm _ _) as [answer_text|e]; [|discriminate].
  match type of Hq with (Ok ?x, _) = _ => set (built := x) in Hq end.
  assert (Hr : r = built) by congruence. subst r. unfold built.
  exists relevant. cbn [context_used sources].
  split; [reflexivity|]. split; [reflexivity|]. split; [now rewrite length_map|].
  split; [now rewrite map_map|]. split; [now rewrite map_map|].
  apply Forall_map. apply Forall_forall. intros chunk _. cbn [src_text].
  apply source_text_bound.
Qed.

End OrchestratorFacts.

Lemma query_sources_witness :
  exists r chain',
    @query length_embedding default_settings llm_ok two_documents new_chain
      (lit "GCP?") true None = (Ok r, chain')
    /\ context_used r = 2%nat
    /\ Forall (fun s => len (src_text s) <= 203) (sources r).
Proof.
  destruct (@query length_embedding default_settings llm_ok two_documents new_chain
              (lit "GCP?") true None) as [[r|e] chain'] eqn:Hq; [|discriminate Hq].
  exists r, chain'. split; [reflexivity|].
  destruct (@query_sources length_embedding default_settings llm_ok two_documents
              new_chain chain' (lit "GCP?") true None r Hq)
    as (relevant & Hsearch & Hused & _ & _ & _ & Hlen).
  split; [|exact Hlen].
  rewrite Hused. vm_compute in Hsearch. injection Hsearch as <-. reflexivity.
Defined.

(** * Sessions and endpoints *)

Lemma get_rag_chain_find (chains : Sessions.t RAGChain) (session_id : str) :
  Sessions.find session_id (snd (get_rag_chain chains session_id))
  = Some (fst (get_rag_chain chains session_id))
  /\ fst (get_rag_chain chains session_id)
     = match Sessions.find session_id chains with
       | Some chain => chain
       | None => new_chain
       end
  /\ forall other, other <> session_id ->
       Sessions.find other (snd (get_rag_chain chains session_id))
       = Sessions.find other chains.
Proof.
  unfold get_rag_chain.
  destruct (Sessions.find session_id chains) as [chain|] eqn:Hfind; simpl.
  - auto.
  - split; [now apply SessionsFacts.add_eq_o|]. split; [reflexivity|].
    intros other Hne. apply SessionsFacts.add_neq_o. congruence.
Qed.



Lemma clear_session_find (chains : Sessions.t RAGChain) (session_id : str) :
  Sessions.find session_id (clear_session chains session_id) = None
  /\ forall other, other <> session_id ->
       Sessions.find other (clear_session chains session_id) = Sessions.find other chains.
Proof.
  unfold clear_session. rewrite SessionsFacts.mem_find_b.
  destruct (Sessions.find session_id chains) as [chain|] eqn:Hfind.
  - split; [now apply SessionsFacts.remove_eq_o|].
    intros other Hne. apply SessionsFacts.remove_neq_o. congruence.
  - split; [exact Hfind|reflexivity].
Qed.

Section EndpointFacts.
Context {E : Embedding}.
Variable settings : Settings.
Variable describe : exn -> str.

(** [POST /clear-history] forgets the named session, or the session
    ["default"] when no id or an empty id is given, and no other session:
    the session is gone from the map and every other id maps to what it
    mapped to before. *)
Theorem clear_history_endpoint_forgets (chains : Sessions.t RAGChain)
    (session_id : option str) (other : str) :
  let sid := str_or session_id (lit "default") in
  Sessions.find sid (fst (clear_history_endpoint chains session_id)) = None
  /\ (other <> sid ->
      Sessions.find other (fst (clear_history_endpoint chains session_id))
      = Sessions.find other chains)
  /\ str_or None (lit "default") = lit "default"
  /\ str_or (Some []) (lit "default") = lit "default".
Proof.
  cbv zeta. unfold clear_history_endpoint. cbn [fst].
  destruct (clear_session_find chains (str_or session_id (lit "default"))) as [Hgone Hother].
  split; [exact Hgone|]. split; [apply Hother|]. split; reflexivity.
Qed.

Lemma chat_refused (llm : completion) (uuid4 : str) (c : collection)
    (chains : Sessions.t RAGChain) (request : ChatRequest.t) :
  strip (ChatRequest.message request) = [] ->
  chat settings describe llm uuid4 c chains request
  = (inr (mkHTTPException 400 (lit "Message cannot be empty")), chains).
Proof. intros Hblank. unfold chat. rewrite Hblank. reflexivity. Qed.

(** A message that is empty or made of whitespace only is refused with
    status 400 before anything else happens: whatever the completion
    capability, the store and the session id given, the reply is the same
    and no session is created or changed. *)
Theorem chat_blank_message (llm : completion) (uuid4 : str) (c : collection)
    (chains : Sessions.t RAGChain) (request : ChatRequest.t) :
  forallb isspace (ChatRequest.message request) = true ->
  chat settings describe llm uuid4 c chains request
  = (inr (mkHTTPException 400 (lit "Message cannot be empty")), chains).
Proof.
  intros Hblank. unfold chat.
  rewrite (strip_nil_of_spaces _ Hblank). reflexivity.
Qed.

(** What [chat] does with a message that is not blank. *)
Lemma chat_served (llm : completion) (uuid4 : str) (c : collection)
    (chains : Sessions.t RAGChain) (request : ChatRequest.t) :
  strip (ChatRequest.message request) <> [] ->
  let sid := str_or (ChatRequest.session_id request) uuid4 in
  let before := fst (get_rag_chain chains sid) in
  chat settings describe llm uuid4 c chains request
  = match query settings llm c before (ChatRequest.message request) true None with
    | (Ok result, after) =>
        (inl {| ChatResponse.answer := answer result;
                ChatResponse.session_id := sid;
                ChatResponse.sources_count := context_used result |},
         Sessions.add sid after (snd (get_rag_chain chains sid)))
    | (Raised e, after) =>
        (inr (mkHTTPException 500 (lit "Error processing request: " ++ describe e)),
         Sessions.add sid after (snd (get_rag_chain chains sid)))
    end.
Proof.
  intros Hmsg. cbv zeta. unfold chat.
  apply truthy_true in Hmsg. rewrite Hmsg. cbn [negb].
  now destruct (get_rag_chain chains (str_or (ChatRequest.session_id request) uuid4)).
Qed.

Lemma chat_other_sessions_aux (llm : completion) (uuid4 : str) (c : collection)
    (chains : Sessions.t RAGChain) (request : ChatRequest.t) (other : str) :
  other <> str_or (ChatRequest.session_id request) uuid4 ->
  Sessions.find other (snd (chat settings describe llm uuid4 c chains request))
  = Sessions.find other chains.
Proof.
  intros Hother.
  destruct (strip (ChatRequest.message request)) as [|ch rest] eqn:Hmsg.
  - now rewrite chat_refused.
  - rewrite chat_served by (rewrite Hmsg; discriminate).
    destruct (get_rag_chain_find chains (str_or (ChatRequest.session_id request) uuid4))
      as (_ & _ & Hkeep).
    destruct (query settings llm c _ _ true None) as [[result|e] after]; cbn [snd];
      (rewrite SessionsFacts.add_neq_o by congruence); now apply Hkeep.
Qed.

(** A chat request touches one session only, the one it names (or the one
    of the fresh id when it names none): every other id maps to what it
    mapped to before. *)
Theorem chat_other_sessions (llm : completion) (uuid4 : str) (c : collection)
    (chains : Sessions.t RAGChain) (request : ChatRequest.t) (other : str) :
  other <> str_or (ChatRequest.session_id request) uuid4 ->
  Sessions.find other (snd (chat settings describe llm uuid4 c chains request))
  = Sessions.find other chains.
Proof.
  intros Hother.
  destruct (get_rag_chain_find chains (str_or (ChatRequest.session_id request) uuid4))
    as (_ & _ & Hkeep).
  destruct (strip (ChatRequest.message request)) as [|ch rest] eqn:Hmsg.
  - unfold chat. rewrite Hmsg. reflexivity.
  - rewrite chat_served by (rewrite Hmsg; discriminate).
    destruct (query settings llm c _ _ true None) as [[result|e] after]; cbn [snd];
      (rewrite SessionsFacts.add_neq_o by congruence); now apply Hkeep.
Qed.

Lemma query_ok_search (llm : completion) (c : collection) (chain chain' : RAGChain)
    (question : str) (include_history : bool) (max_chunks : option Z) (r : response) :
  query settings llm c chain question include_history max_chunks = (Ok r, chain') ->
  exists relevant,
    search settings c question (Some (or_default max_chunks (max_context_chunks settings)))
    = Ok relevant
    /\ context_used r = length relevant.
Proof.
  unfold query. intros Hq.
  destruct (search settings c question _) as [relevant|e]; [|discriminate].
  destruct (llm _ _) as [answer_text|e]; [|discriminate].
  match type of Hq with (Ok ?x, _) = _ => set (built := x) in Hq end.
  assert (Hr : r = built) by congruence. subst r. now exists relevant.
Qed.

(** A chat request with a message that is not blank answers under the
    session id it was given (the fresh id when none or an empty one was
    given). When it succeeds, the session's history is the history the
    session had before (empty for a new session) with the raw message and
    the answer appended and then trimmed to the last 20 messages, and the
    reply counts the chunks retrieved for the message with the configured
    number of results; when retrieval or the completion fails, the reply is
    an error of status 500 and the session exists with the history it had
    before. *)
Theorem chat_session_history (llm : completion) (uuid4 : str) (c : collection)
    (chains : Sessions.t RAGChain) (request : ChatRequest.t) :
  strip (ChatRequest.message request) <> [] ->
  let sid := str_or (ChatRequest.session_id request) uuid4 in
  let before :=
    match Sessions.find sid chains with
    | Some chain => conversation_history chain
    | None => []
    end in
  exists chain',
    Sessions.find sid (snd (chat settings describe llm uuid4 c chains request)) = Some chain'
    /\ match fst (chat settings describe llm uuid4 c chains request) with
       | inl r =>
           ChatResponse.session_id r = sid
           /\ conversation_history chain'
              = update_history before (ChatRequest.message request) (ChatResponse.answer r)
           /\ exists relevant,
                search settings c (ChatRequest.message request)
                  (Some (max_context_chunks settings)) = Ok relevant
                /\ ChatResponse.sources_count r = length relevant
       | inr e => status_of e = 500 /\ conversation_history chain' = before
       end.
Proof.
  intros Hmsg. cbv zeta. rewrite (chat_served llm uuid4 c chains request Hmsg). cbv zeta.
  destruct (get_rag_chain_find chains (str_or (ChatRequest.session_id request) uuid4))
    as (_ & Hbefore & _).
  assert (Hhist : conversation_history
                    (fst (get_rag_chain chains
                            (str_or (ChatRequest.session_id request) uuid4)))
                  = match Sessions.find (str_or (ChatRequest.session_id request) uuid4)
                            chains with
                    | Some chain => conversation_history chain
                    | None => []
                    end).
  { rewrite Hbefore. now destruct (Sessions.find _ chains). }
  pose proof (query_history settings llm c
                (fst (get_rag_chain chains (str_or (ChatRequest.session_id request) uuid4)))
                (ChatRequest.message request) true None) as Hq.
  destruct (query settings llm c _ _ true None) as [[result|e] after] eqn:Hquery.
  - exists after. cbn [fst snd]. split; [now apply SessionsFacts.add_eq_o|].
    cbn [ChatResponse.session_id ChatResponse.answer ChatResponse.sources_count].
    split; [reflexivity|]. split; [now rewrite Hq, Hhist|].
    apply query_ok_search in Hquery. exact Hquery.
  - exists after. cbn [fst snd]. split; [now apply SessionsFacts.add_eq_o|].
    split; [reflexivity|]. subst after. exact Hhist.
Qed.

(** Clearing a session and then asking a question starts over: after a
    [POST /clear-history] for a session and a successful [POST /chat] on
    it, the session's history is exactly the question and its answer. *)
Theorem chat_after_clear (llm : completion) (uuid4 sid : str) (c : collection)
    (chains : Sessions.t RAGChain) (message : str) (r : ChatResponse.t)
    (chains' : Sessions.t RAGChain) :
  sid <> [] -> strip message <> [] ->
  chat settings describe llm uuid4 c (fst (clear_history_endpoint chains (Some sid)))
    (ChatRequest.mk message (Some sid))
  = (inl r, chains') ->
  exists chain,
    Sessions.find sid chains' = Some chain
    /\ conversation_history chain
       = [mkMessage user message; mkMessage assistant (ChatResponse.answer r)].
Proof.
  intros Hsid Hmsg Hchat.
  assert (Hkey : str_or (Some sid) (lit "default") = sid)
    by (destruct sid; [congruence|reflexivity]).
  assert (Hkey' : str_or (Some sid) uuid4 = sid)
    by (destruct sid; [congruence|reflexivity]).
  rewrite chat_served in Hchat by exact Hmsg. cbv zeta in Hchat.
  cbn [ChatRequest.message ChatRequest.session_id] in Hchat. rewrite Hkey' in Hchat.
  destruct (get_rag_chain_find (fst (clear_history_endpoint chains (Some sid))) sid)
    as (_ & Hbefore & _).
  unfold clear_history_endpoint in Hbefore at 2. cbn [fst] in Hbefore.
  rewrite Hkey in Hbefore.
  rewrite (proj1 (clear_session_find chains sid)) in Hbefore.
  pose proof (query_history settings llm c
                (fst (get_rag_chain (fst (clear_history_endpoint chains (Some sid))) sid))
                message true None) as Hq.
  destruct (query settings llm c _ message true None) as [[result|e] after];
    [|discriminate].
  injection Hchat as <- <-. exists after.
  split; [now apply SessionsFacts.add_eq_o|].
  rewrite Hq, Hbefore. reflexivity.
Qed.

(** Whatever requests a process has served, every session it holds has a
    history of at most 20 messages, of even length, whose roles alternate
    from a user turn. *)
Theorem serve_all_histories (c : collection) (requests : list request)
    (sid : str) (chain : RAGChain) :
  Sessions.find sid (serve_all settings describe c requests) = Some chain ->
  (length (conversation_history chain) <= 20)%nat
  /\ Nat.even (length (conversation_history chain)) = true
  /\ alternates user (conversation_history chain) = true.
Proof.
  assert (Hgen : forall chains,
             (forall k ch, Sessions.find k chains = Some ch ->
                paired (conversation_history ch)
                /\ (length (conversation_history ch) <= 20)%nat) ->
             forall k ch,
               Sessions.find k (fold_left (serve settings describe c) requests chains)
               = Some ch ->
               paired (conversation_history ch)
               /\ (length (conversation_history ch) <= 20)%nat).
  { induction requests as [|req requests IH]; intros chains Hinv; [exact Hinv|].
    simpl. apply IH. clear IH. intros k ch Hfind.
    destruct req as [llm uuid4 body|session_id]; cbn [serve] in Hfind.
    - destruct (StrKey.eq_dec k (str_or (ChatRequest.session_id body) uuid4)) as [->|Hne].
      + destruct (strip (ChatRequest.message body)) as [|x rest] eqn:Hmsg.
        * rewrite chat_refused in Hfind by exact Hmsg. cbn [snd] in Hfind.
          exact (Hinv _ ch Hfind).
        * rewrite chat_served in Hfind by (rewrite Hmsg; discriminate). cbv zeta in Hfind.
          destruct (get_rag_chain_find chains
                      (str_or (ChatRequest.session_id body) uuid4)) as (_ & Hbefore & _).
          assert (Hold : paired (conversation_history
                                   (fst (get_rag_chain chains
                                           (str_or (ChatRequest.session_id body) uuid4))))
                         /\ (length (conversation_history
                                       (fst (get_rag_chain chains
                                               (str_or (ChatRequest.session_id body)
                                                  uuid4)))) <= 20)%nat).
          { rewrite Hbefore.
            destruct (Sessions.find (str_or (ChatRequest.session_id body) uuid4) chains)
              as [old|] eqn:Hfound.
            - exact (Hinv _ old Hfound).
            - split; [now exists []|simpl; lia]. }
          pose proof (query_history settings llm c
                        (fst (get_rag_chain chains
                                (str_or (ChatRequest.session_id body) uuid4)))
                        (ChatRequest.message body) true None) as Hq.
          destruct (query settings llm c _ _ true None) as [[result|e] after];
            cbn [snd] in Hfind;
            rewrite SessionsFacts.add_eq_o in Hfind by reflexivity;
            injection Hfind as <-.
          -- rewrite Hq. split; [now apply update_history_paired|apply update_history_bound].
          -- subst after. exact Hold.
      + rewrite chat_other_sessions_aux in Hfind by exact Hne. exact (Hinv _ ch Hfind).
    - cbn [fst] in Hfind. unfold clear_history_endpoint in Hfind. cbn [fst] in Hfind.
      destruct (clear_session_find chains (str_or session_id (lit "default")))
        as [Hgone Hother].
      destruct (StrKey.eq_dec k (str_or session_id (lit "default"))) as [->|Hne].
      + rewrite Hgone in Hfind. discriminate.
      + rewrite Hother in Hfind by exact Hne. exact (Hinv _ ch Hfind). }
  intros Hfind. unfold serve_all in Hfind.
  destruct (Hgen (Sessions.empty RAGChain)) with (k := sid) (ch := chain)
    as [Hpaired Hlen]; [|exact Hfind|].
  - intros k ch Hk. rewrite SessionsFacts.empty_o in Hk. discriminate.
  - split; [exact Hlen|]. now apply paired_alternates.
Qed.

End EndpointFacts.

Lemma chat_blank_message_witness :
  forallb isspace (lit "   ") = true
  /\ @chat length_embedding default_settings exn_text llm_ok (lit "u1") two_documents
       (Sessions.empty RAGChain) (ChatRequest.mk (lit "   ") None)
     = (inr (mkHTTPException 400 (lit "Message cannot be empty")), Sessions.empty RAGChain).
Proof.
  assert (H : forallb isspace (lit "   ") = true) by reflexivity.
  split; [exact H|].
  exact (@chat_blank_message length_embedding default_settings exn_text llm_ok (lit "u1")
           two_documents (Sessions.empty RAGChain) (ChatRequest.mk (lit "   ") None) H).
Defined.

Lemma chat_other_sessions_witness :
  lit "s2" <> str_or (Some (lit "s1")) (lit "u1")
  /\ Sessions.find (lit "s2")
       (snd (@chat length_embedding default_settings exn_text llm_ok (lit "u1") two_documents
               (Sessions.empty RAGChain) (ChatRequest.mk (lit "GCP?") (Some (lit "s1")))))
     = Sessions.find (lit "s2") (Sessions.empty RAGChain).
Proof.
  assert (H : lit "s2" <> str_or (Some (lit "s1")) (lit "u1")) by discriminate.
  split; [exact H|].
  exact (@chat_other_sessions length_embedding default_settings exn_text llm_ok (lit "u1")
           two_documents (Sessions.empty RAGChain)
           (ChatRequest.mk (lit "GCP?") (Some (lit "s1"))) (lit "s2") H).
Defined.

Lemma chat_session_history_witness :
  strip (lit "GCP?") <> []
  /\ exists chain',
       Sessions.find (lit "u1")
         (snd (@chat length_embedding default_settings exn_text llm_ok (lit "u1")
                 two_documents (Sessions.empty RAGChain) (ChatRequest.mk (lit "GCP?") None)))
       = Some chain'.
Proof.
  assert (H : strip (lit "GCP?") <> []) by discriminate.
  split; [exact H|].
  destruct (@chat_session_history length_embedding default_settings exn_text llm_ok
              (lit "u1") two_documents (Sessions.empty RAGChain)
              (ChatRequest.mk (lit "GCP?") None) H) as [chain' [Hfind _]].
  exists chain'. exact Hfind.
Defined.

Lemma chat_after_clear_witness :
  exists r chains',
    @chat length_embedding default_settings exn_text llm_ok (lit "u1") two_documents
      (fst (clear_history_endpoint (Sessions.empty RAGChain) (Some (lit "s1"))))
      (ChatRequest.mk (lit "GCP?") (Some (lit "s1")))
    = (inl r, chains')
    /\ exists chain,
         Sessions.find (lit "s1") chains' = Some chain
         /\ conversation_history chain
            = [mkMessage user (lit "GCP?"); mkMessage assistant (ChatResponse.answer r)].
Proof.
  destruct (@chat length_embedding default_settings exn_text llm_ok (lit "u1") two_documents
              (fst (clear_history_endpoint (Sessions.empty RAGChain) (Some (lit "s1"))))
              (ChatRequest.mk (lit "GCP?") (Some (lit "s1")))) as [[r|e] chains'] eqn:Hchat;
    [|discriminate Hchat].
  exists r, chains'. split; [reflexivity|].
  assert (Hsid : lit "s1" <> []) by discriminate.
  assert (Hmsg : strip (lit "GCP?") <> []) by discriminate.
  exact (@chat_after_clear length_embedding default_settings exn_text llm_ok (lit "u1")
           (lit "s1") two_documents (Sessions.empty RAGChain) (lit "GCP?") r chains'
           Hsid Hmsg Hchat).
Defined.

Lemma serve_all_histories_witness :
  exists chain,
    Sessions.find (lit "s1")
      (@serve_all length_embedding default_settings exn_text two_documents
         [ChatRequested llm_ok (lit "u1") (ChatRequest.mk (lit "GCP?") (Some (lit "s1")))])
    = Some chain
    /\ (length (conversation_history chain) <= 20)%nat
    /\ Nat.even (length (conversation_history chain)) = true
    /\ alternates user (conversation_history chain) = true.
Proof.
  destruct (Sessions.find (lit "s1")
              (@serve_all length_embedding default_settings exn_text two_documents
                 [ChatRequested llm_ok (lit "u1")
                    (ChatRequest.mk (lit "GCP?") (Some (lit "s1")))]))
    as [chain|] eqn:Hfind; [|discriminate Hfind].
  exists chain. split; [reflexivity|].
  exact (@serve_all_histories length_embedding default_settings exn_text two_documents
           _ (lit "s1") chain Hfind).
Defined.

Section Startup.
Context {E : Embedding}.

(** After startup on an empty store with the PDF present, the document
    count that [/health] and [/stats] report is the number of chunks the
    PDF yields; a restart on the store so filled leaves it as it is; and
    without the PDF the store is not touched. *)
Theorem lifespan_startup_count (pdf : list str) (c : collection) :
  get_document_count (lifespan_startup [] (Some pdf)) = length (corpus_chunks pdf)
  /\ lifespan_startup (lifespan_startup [] (Some pdf)) (Some pdf)
     = lifespan_startup [] (Some pdf)
  /\ lifespan_startup c None = c.
Proof.
  assert (Hfirst : lifespan_startup [] (Some pdf) = map stored_of_chunk (corpus_chunks pdf)).
  { unfold lifespan_startup. pose proof (index_run_flow pdf) as H.
    destruct (process_and_store_pdf [] pdf) as [[n c1] calls].
    destruct H as (_ & -> & _). reflexivity. }
  split; [|split; [|reflexivity]].
  - rewrite Hfirst. unfold get_document_count, collection_count. apply length_map.
  - rewrite Hfirst. destruct (corpus_chunks pdf) as [|k ks] eqn:Hcorpus.
    + simpl map. rewrite <- Hcorpus in Hfirst. simpl map in Hfirst.
      rewrite Hcorpus in Hfirst. exact Hfirst.
    + unfold lifespan_startup at 1.
      rewrite process_and_store_pdf_guard by (simpl; discriminate). reflexivity.
Qed.

End Startup.

(** * A text that fits the threshold *)

Lemma join_app (sep : str) (a b : list str) :
  a <> [] -> b <> [] -> join sep (a ++ b) = join sep a ++ sep ++ join sep b.
Proof.
  induction a as [|x a IH]; intros Ha Hb; [congruence|].
  destruct a as [|y a].
  - destruct b; [congruence|reflexivity].
  - change (join sep ((x :: y :: a) ++ b)) with (x ++ sep ++ join sep ((y :: a) ++ b)).
    rewrite IH by (discriminate || assumption).
    change (join sep (x :: y :: a)) with (x ++ sep ++ join sep (y :: a)).
    now rewrite <- !app_assoc.
Qed.

Lemma len_join_prefix (sep : str) (a b : list str) :
  len (join sep a) <= len (join sep (a ++ b)).
Proof.
  destruct a as [|x a]; [simpl; apply len_nonneg|].
  destruct b as [|y b]; [rewrite app_nil_r; lia|].
  rewrite join_app by discriminate. rewrite !len_app.
  pose proof (len_nonneg sep). pose proof (len_nonneg (join sep (y :: b))). lia.
Qed.

Lemma group_loop_fits (chunk_size : Z) (rest : list str) :
  forall cur,
    len (join blank_line (cur ++ rest)) <= chunk_size ->
    fold_left (group_step chunk_size) rest {| groups := []; current_group := cur |}
    = {| groups := []; current_group := cur ++ rest |}.
Proof.
  induction rest as [|p rest IH]; intros cur Hfit; simpl; [now rewrite app_nil_r|].
  assert (Hstep : group_step chunk_size {| groups := []; current_group := cur |} p
                  = {| groups := []; current_group := cur ++ [p] |}).
  { unfold group_step. cbn [groups current_group].
    destruct cur as [|q cur]; [now rewrite andb_false_r|].
    rewrite andb_true_r.
    assert (Hle : len (join blank_line (q :: cur)) + len p <= chunk_size).
    { pose proof (len_join_prefix blank_line ((q :: cur) ++ [p]) rest) as Hpre.
      replace (((q :: cur) ++ [p]) ++ rest) with ((q :: cur) ++ p :: rest) in Hpre
        by (now rewrite <- app_assoc).
      rewrite (join_snoc blank_line (q :: cur) p) in Hpre. cbv iota in Hpre.
      rewrite !len_app in Hpre. pose proof (len_nonneg blank_line). lia. }
    rewrite Z.gtb_ltb. now apply Z.ltb_ge in Hle as ->. }
  rewrite Hstep, IH; rewrite <- app_assoc; [reflexivity|exact Hfit].
Qed.

Lemma lstrip_len (s : str) : len (lstrip s) <= len s.
Proof.
  induction s as [|c s IH]; simpl; [lia|].
  destruct (isspace c); [|lia]. unfold len in *. simpl length. lia.
Qed.

Lemma strip_len (s : str) : len (strip s) <= len s.
Proof.
  unfold strip, rstrip. unfold len. rewrite length_rev.
  pose proof (lstrip_len (rev (lstrip s))) as H1. pose proof (lstrip_len s) as H2.
  unfold len in *. rewrite length_rev in H1. lia.
Qed.

Lemma paragraphs_len (pieces : list str) :
  len (join blank_line (filter truthy (map strip pieces))) <= len (join blank_line pieces).
Proof.
  induction pieces as [|a l IH]; [simpl; lia|].
  assert (Hrest : len (join blank_line l) <= len (join blank_line (a :: l))).
  { destruct l as [|b l]; [simpl; apply len_nonneg|].
    change (join blank_line (a :: b :: l)) with (a ++ blank_line ++ join blank_line (b :: l)).
    rewrite !len_app. pose proof (len_nonneg a). pose proof (len_nonneg blank_line). lia. }
  simpl map. simpl filter. destruct (truthy (strip a)) eqn:Ha; [|lia].
  pose proof (strip_len a) as Hs.
  destruct (filter truthy (map strip l)) as [|q qs] eqn:Hf.
  - simpl join at 1. destruct l as [|b l]; [simpl; lia|].
    change (join blank_line (a :: b :: l)) with (a ++ blank_line ++ join blank_line (b :: l)).
    rewrite !len_app. pose proof (len_nonneg blank_line).
    pose proof (len_nonneg (join blank_line (b :: l))). lia.
  - destruct l as [|b l]; [discriminate|].
    change (join blank_line (strip a :: q :: qs))
      with (strip a ++ blank_line ++ join blank_line (q :: qs)).
    change (join blank_line (a :: b :: l)) with (a ++ blank_line ++ join blank_line (b :: l)).
    rewrite !len_app. lia.
Qed.

(** A text that is not blank and is no longer than the threshold gives
    exactly one chunk, of ordinal 0: its paragraphs, stripped and joined by
    blank lines. *)
Theorem chunk_text_simple_single (text : str) (page_num chunk_size : Z) :
  forallb isspace text = false -> len text <= chunk_size ->
  chunk_text_simple text page_num chunk_size
  = [ {| Chunk.id := lit "page" ++ str_of_Z page_num ++ lit "_chunk" ++ str_of_nat 0;
         Chunk.text := join blank_line (paragraphs text);
         Chunk.page := page_num |} ].
Proof.
  intros Hblank Hfit.
  assert (Hne : paragraphs text <> []).
  { intros Hnil. apply paragraphs_nil_iff in Hnil. congruence. }
  assert (Hlen : len (join blank_line (paragraphs text)) <= chunk_size).
  { pose proof (paragraphs_len (split_blank_lines text)) as H.
    rewrite join_split_blank_lines in H. unfold paragraphs. lia. }
  rewrite chunk_text_simple_groups. unfold group_paragraphs.
  rewrite (group_loop_fits chunk_size (paragraphs text) []) by exact Hlen.
  unfold group_finish. cbn [current_group groups app].
  destruct (paragraphs text) as [|p ps]; [congruence|]. reflexivity.
Qed.

Lemma chunk_text_simple_single_witness :
  forallb isspace (lit " aaa" ++ blank_line ++ lit "bb ") = false
  /\ len (lit " aaa" ++ blank_line ++ lit "bb ") <= 800
  /\ map Chunk.text (chunk_text_simple (lit " aaa" ++ blank_line ++ lit "bb ") 2 800)
     = [lit "aaa" ++ blank_line ++ lit "bb"].
Proof.
  assert (H1 : forallb isspace (lit " aaa" ++ blank_line ++ lit "bb ") = false)
    by reflexivity.
  assert (H2 : len (lit " aaa" ++ blank_line ++ lit "bb ") <= 800)
    by (vm_compute; discriminate).
  split; [exact H1|]. split; [exact H2|].
  rewrite (chunk_text_simple_single _ 2 800 H1 H2). reflexivity.
Defined.
